(** * StrongType: a tagged wrapper around an arithmetic primitive

    Shallow embedding of [src/strongtype.hpp] (namespace [qip]):

      template <typename enumT, enumT enumV, typename BaseT> struct StrongType

    - The representation type [BaseT] is any instance of the class
      [Arithmetic]: the built-in operators the header applies to [value]
      ([*=], [/=], [+=], [-=], [++], [--], and the relational operators).
      A primitive operation whose behaviour C++ leaves undefined (signed
      overflow, integer division by zero) yields [None].
    - Objects live in a store of [BaseT] cells; a [StrongT] object occupies
      exactly the cell of its only member [value].  References
      ([StrongT &], [const BaseT &], [const BaseT &&]) are locations,
      by-value parameters are Rocq values copied into a fresh cell.
    - Member and friend functions are computations in a state-and-failure
      monad over the store.
    - Compile-time behaviour (the two [static_assert]s, and which operator
      overload accepts which operands) is modelled in [Module Sema]. *)

From Stdlib Require Import ZArith Bool String Ascii List DecimalString.
From Stdlib Require Import Floats.SpecFloat.
From Stdlib Require DecimalPos DecimalN.
From stdpp Require Import base option gmap.

Local Open Scope Z_scope.

(** ** The representation type *)

(** What the header needs from [BaseT]: the compound assignments and the
    increments give the value stored in the left operand ([None]: undefined
    behaviour); [prim_compare] is the outcome of comparing two values:
    less, equal, greater, or unordered ([None], a floating-point NaN). *)
Class Arithmetic (BaseT : Type) := {
  prim_mul : BaseT -> BaseT -> option BaseT;
  prim_div : BaseT -> BaseT -> option BaseT;
  prim_add : BaseT -> BaseT -> option BaseT;
  prim_sub : BaseT -> BaseT -> option BaseT;
  prim_incr : BaseT -> option BaseT;
  prim_decr : BaseT -> option BaseT;
  prim_compare : BaseT -> BaseT -> option comparison
}.

(** Swapping the operands of a comparison mirrors its outcome. *)
Class LawfulCompare (BaseT : Type) {arith : Arithmetic BaseT} := {
  prim_compare_swap :
    forall x y : BaseT, prim_compare y x = option_map CompOpp (prim_compare x y)
}.

(** The four arithmetic operators and the six relational operators. *)
Inductive arith_op := Mul | Div | Add | Sub.
Inductive cmp_op := CmpEq | CmpNe | CmpLt | CmpGt | CmpLe | CmpGe.

Section Primitive.
Context {BaseT : Type} {arith : Arithmetic BaseT}.

(** [x op= y] on the primitive: the value left in [x]. *)
Definition prim_arith (op : arith_op) : BaseT -> BaseT -> option BaseT :=
  match op with
  | Mul => prim_mul
  | Div => prim_div
  | Add => prim_add
  | Sub => prim_sub
  end.

(** The built-in [==], [!=], [<], [>], [<=], [>=].  On unordered operands
    all of them are false except [!=]. *)
Definition prim_eq (x y : BaseT) : bool :=
  match prim_compare x y with Some Eq => true | _ => false end.
Definition prim_ne (x y : BaseT) : bool := negb (prim_eq x y).
Definition prim_lt (x y : BaseT) : bool :=
  match prim_compare x y with Some Lt => true | _ => false end.
Definition prim_gt (x y : BaseT) : bool :=
  match prim_compare x y with Some Gt => true | _ => false end.
Definition prim_le (x y : BaseT) : bool :=
  match prim_compare x y with Some (Lt | Eq) => true | _ => false end.
Definition prim_ge (x y : BaseT) : bool :=
  match prim_compare x y with Some (Gt | Eq) => true | _ => false end.

Definition prim_cmp (op : cmp_op) : BaseT -> BaseT -> bool :=
  match op with
  | CmpEq => prim_eq
  | CmpNe => prim_ne
  | CmpLt => prim_lt
  | CmpGt => prim_gt
  | CmpLe => prim_le
  | CmpGe => prim_ge
  end.

(** The six comparisons as the header obtains them from the primitive's
    [==] and [<] alone (lines 125-142). *)
Definition derived_cmp (op : cmp_op) (x y : BaseT) : bool :=
  match op with
  | CmpEq => prim_eq x y
  | CmpNe => negb (prim_eq x y)
  | CmpLt => prim_lt x y
  | CmpGt => prim_lt y x
  | CmpLe => negb (prim_lt y x)
  | CmpGe => negb (prim_lt x y)
  end.
End Primitive.

(** *** [int]: 32-bit two's complement, overflow undefined *)

Definition int : Type := Z.
Definition INT_MIN : Z := - 2 ^ 31.
Definition INT_MAX : Z := 2 ^ 31 - 1.

Definition int_result (r : Z) : option int :=
  if (INT_MIN <=? r) && (r <=? INT_MAX) then Some r else None.

Definition int_div (x y : int) : option int :=
  if y =? 0 then None else int_result (Z.quot x y).

Definition int_arithmetic : Arithmetic int := {|
  prim_mul x y := int_result (x * y);
  prim_div := int_div;
  prim_add x y := int_result (x + y);
  prim_sub x y := int_result (x - y);
  prim_incr x := int_result (x + 1);
  prim_decr x := int_result (x - 1);
  prim_compare x y := Some (x ?= y)
|}.

(** *** [unsigned]: arithmetic modulo 2^32 *)

Definition unsigned : Type := Z.
Definition UINT_MODULUS : Z := 2 ^ 32.

Definition wrap (r : Z) : unsigned := r mod UINT_MODULUS.

Definition unsigned_div (x y : unsigned) : option unsigned :=
  if y =? 0 then None else Some (x / y).

Definition unsigned_arithmetic : Arithmetic unsigned := {|
  prim_mul x y := Some (wrap (x * y));
  prim_div := unsigned_div;
  prim_add x y := Some (wrap (x + y));
  prim_sub x y := Some (wrap (x - y));
  prim_incr x := Some (wrap (x + 1));
  prim_decr x := Some (wrap (x - 1));
  prim_compare x y := Some (x ?= y)
|}.

(** *** [double]: IEEE 754 binary64, round to nearest even *)

Definition double : Type := spec_float.
Definition dbl_prec : Z := 53.
Definition dbl_emax : Z := 1024.

Definition dbl_one : double := SFone dbl_prec dbl_emax.
Definition dbl_nan : double := S754_nan.
Definition dbl_inf : double := S754_infinity false.

Definition double_arithmetic : Arithmetic double := {|
  prim_mul x y := Some (SFmul dbl_prec dbl_emax x y);
  prim_div x y := Some (SFdiv dbl_prec dbl_emax x y);
  prim_add x y := Some (SFadd dbl_prec dbl_emax x y);
  prim_sub x y := Some (SFsub dbl_prec dbl_emax x y);
  prim_incr x := Some (SFadd dbl_prec dbl_emax x dbl_one);
  prim_decr x := Some (SFsub dbl_prec dbl_emax x dbl_one);
  prim_compare := SFcompare
|}.

(** ** The text streams *)

(** [std::ostream]: the characters written so far.  [std::istream]: the
    characters still to be read and the fail bit. *)
Record ostream := { written : string }.
Record istream := { pending : string; failbit : bool }.

(** The stream library's insertion and extraction for the representation
    type (not part of the header).  Extraction gets the variable's current
    value and gives its new value. *)
Class Streamable (BaseT : Type) := {
  prim_insert : ostream -> BaseT -> ostream;
  prim_extract : istream -> BaseT -> istream * BaseT
}.

(** *** Decimal text for [unsigned] *)

Definition is_space (c : ascii) : bool :=
  match c with
  | " "%char | "009"%char | "010"%char | "011"%char | "012"%char | "013"%char => true
  | _ => false
  end.

Definition is_digit (c : ascii) : bool :=
  let n := N_of_ascii c in (48 <=? n)%N && (n <=? 57)%N.

Fixpoint skip_spaces (s : string) : string :=
  match s with
  | String c rest => if is_space c then skip_spaces rest else s
  | EmptyString => s
  end.

(** The longest prefix of digits, and what follows it. *)
Fixpoint take_digits (s : string) : string * string :=
  match s with
  | String c rest =>
      if is_digit c
      then let (ds, tl) := take_digits rest in (String c ds, tl)
      else (EmptyString, s)
  | EmptyString => (EmptyString, EmptyString)
  end.

Definition unsigned_insert (os : ostream) (v : unsigned) : ostream :=
  {| written := (written os ++ NilZero.string_of_uint (N.to_uint (Z.to_N v)))%string |}.

(** An optional sign in front of the digits: whether it is a minus, and
    what follows it. *)
Definition take_sign (s : string) : bool * string :=
  match s with
  | String "+"%char rest => (false, rest)
  | String "-"%char rest => (true, rest)
  | _ => (false, s)
  end.

(** Formatted input.  Nothing happens on a failed stream.  Otherwise
    white space is skipped; at the end of the input the fail bit is set
    and the variable keeps its value.  Else an optional sign and a field
    of digits are consumed: an empty field stores zero and an out-of-range
    one the largest value, both setting the fail bit; a field in range is
    stored, negated modulo 2^32 after a minus sign. *)
Definition unsigned_extract (ins : istream) (old : unsigned) : istream * unsigned :=
  if failbit ins then (ins, old)
  else
    match skip_spaces (pending ins) with
    | EmptyString => ({| pending := EmptyString; failbit := true |}, old)
    | field =>
        let (negative, unsigned_part) := take_sign field in
        let (ds, tl) := take_digits unsigned_part in
        match NilZero.uint_of_string ds with
        | None => ({| pending := tl; failbit := true |}, 0)
        | Some d =>
            let n := Z.of_uint d in
            if n <? UINT_MODULUS
            then ({| pending := tl; failbit := false |},
                  if negative then wrap (- n) else n)
            else ({| pending := tl; failbit := true |}, UINT_MODULUS - 1)
        end
    end.

Definition unsigned_streamable : Streamable unsigned := {|
  prim_insert := unsigned_insert;
  prim_extract := unsigned_extract
|}.

(** ** The object store *)

(** A location holds one scalar of the representation type.  A reference
    to a [T] is the location of the object it designates. *)
Definition loc : Type := positive.
Bind Scope positive_scope with loc.
Abbreviation ref T := (loc) (only parsing).

Section Store.
Context {BaseT : Type}.

(** A computation reads and updates the store; [None] is undefined
    behaviour (use of a reference to no object, or an undefined
    primitive operation). *)
Definition M (A : Type) : Type := gmap loc BaseT -> option (A * gmap loc BaseT).

Definition ret {A} (a : A) : M A := fun m => Some (a, m).

Definition bind {A B} (c : M A) (k : A -> M B) : M B :=
  fun m => match c m with
           | Some (a, m') => k a m'
           | None => None
           end.

(** A primitive operation that may be undefined. *)
Definition defined {A} (o : option A) : M A :=
  fun m => match o with
           | Some a => Some (a, m)
           | None => None
           end.

(** Lvalue-to-rvalue conversion. *)
Definition load (x : ref BaseT) : M BaseT :=
  fun m => match m !! x with
           | Some v => Some (v, m)
           | None => None
           end.

(** Assignment through a reference to a live object. *)
Definition assign (x : ref BaseT) (v : BaseT) : M unit :=
  fun m => match m !! x with
           | Some _ => Some (tt, <[x := v]> m)
           | None => None
           end.

(** Storage for a new object (a by-value parameter, a local, a
    temporary), initialised with [v]; and the end of its lifetime. *)
Definition alloc (v : BaseT) : M (ref BaseT) :=
  fun m => let p := fresh (dom m) in Some (p, <[p := v]> m).

Definition free (p : ref BaseT) : M unit :=
  fun m => Some (tt, delete p m).

(** The result of a computation and the store it leaves. *)
Definition result_of {A} (c : M A) (m : gmap loc BaseT) : option A :=
  option_map fst (c m).
End Store.
Arguments M : clear implicits.

Declare Scope cpp_scope.
Delimit Scope cpp_scope with cpp.
Notation "x <- c ;; k" := (bind c (fun x => k))
  (at level 100, c at next level, right associativity) : cpp_scope.
Notation "c ;; k" := (bind c (fun _ => k))
  (at level 100, k at level 200, right associativity) : cpp_scope.

(** ** The wrapper *)

(** [struct StrongType]: the tag [enumV] of the enumeration [enumT] is part
    of the type only; the one data member is [value]. *)
Record StrongType (enumT : Type) (enumV : enumT) (BaseT : Type) : Type :=
  mkStrongType { value : BaseT }.
Arguments mkStrongType {enumT enumV BaseT} value.
Arguments value {enumT enumV BaseT} s.

Section StrongType.
Context {enumT : Type} {enumV : enumT} {BaseT : Type}.
Context {arith : Arithmetic BaseT} {io : Streamable BaseT}.

(** [using StrongT = StrongType<enumT, enumV, BaseT>] *)
Local Abbreviation StrongT := (StrongType enumT enumV BaseT).
Local Open Scope cpp_scope.

(** The member [value] of the object a reference designates. *)
Definition field_value (this : ref StrongT) : ref BaseT := this.

(** Copy construction from the object a reference designates. *)
Definition copy_of (r : ref StrongT) : M BaseT StrongT :=
  v <- load (field_value r);; ret (mkStrongType v).

(** A strong value with storage of its own, for the time of a call: a
    parameter passed by value (initialised from the argument), or a
    temporary bound to a reference. *)
Definition with_strong {A} (arg : StrongT) (body : ref StrongT -> M BaseT A) : M BaseT A :=
  p <- alloc (value arg);; r <- body p;; free p;; ret r.

(** A variable or temporary of the representation type. *)
Definition with_base {A} (v : BaseT) (body : ref BaseT -> M BaseT A) : M BaseT A :=
  p <- alloc v;; r <- body p;; free p;; ret r.

(** [explicit constexpr StrongType(BaseT tv) : value(tv) {}] *)
Definition StrongType_ctor (tv : BaseT) : StrongT := mkStrongType tv.

(** [explicit constexpr operator BaseT() const { return value; }] *)
Definition operator_BaseT (this : ref StrongT) : M BaseT BaseT :=
  load (field_value this).

(** [constexpr BaseT &as_base() { return value; }] *)
Definition as_base (this : ref StrongT) : M BaseT (ref BaseT) :=
  ret (field_value this).

(** [constexpr BaseT as_base() const { return value; }] *)
Definition as_base_const (this : ref StrongT) : M BaseT BaseT :=
  load (field_value this).

(** The built-in [x op= y] on two lvalues of the representation type. *)
Definition compound (f : BaseT -> BaseT -> option BaseT)
    (x y : ref BaseT) : M BaseT unit :=
  b <- load y;; a <- load x;; r <- defined (f a b);; assign x r.

(** *** Arithmetic between strong values (lines 52-79) *)

(** [operator*=(const StrongT &rhs) { this->value *= rhs.value; return *this; }] *)
Definition operator_mul_assign (this rhs : ref StrongT) : M BaseT (ref StrongT) :=
  compound prim_mul (field_value this) (field_value rhs);; ret this.

(** [operator*(StrongT lhs, const StrongT &rhs) { return lhs *= rhs; }] *)
Definition operator_mul (lhs : StrongT) (rhs : ref StrongT) : M BaseT StrongT :=
  with_strong lhs (fun lhs => r <- operator_mul_assign lhs rhs;; copy_of r).

(** [operator/=(const StrongT &rhs) { this->value /= rhs.value; return *this; }] *)
Definition operator_div_assign (this rhs : ref StrongT) : M BaseT (ref StrongT) :=
  compound prim_div (field_value this) (field_value rhs);; ret this.

(** [operator/(StrongT lhs, const StrongT &rhs) { return lhs /= rhs; }] *)
Definition operator_div (lhs : StrongT) (rhs : ref StrongT) : M BaseT StrongT :=
  with_strong lhs (fun lhs => r <- operator_div_assign lhs rhs;; copy_of r).

(** [operator+=(const StrongT &rhs) { this->value += rhs.value; return *this; }] *)
Definition operator_add_assign (this rhs : ref StrongT) : M BaseT (ref StrongT) :=
  compound prim_add (field_value this) (field_value rhs);; ret this.

(** [operator+(StrongT lhs, const StrongT &rhs) { return lhs += rhs; }] *)
Definition operator_add (lhs : StrongT) (rhs : ref StrongT) : M BaseT StrongT :=
  with_strong lhs (fun lhs => r <- operator_add_assign lhs rhs;; copy_of r).

(** [operator-=(const StrongT &rhs) { this->value -= rhs.value; return *this; }] *)
Definition operator_sub_assign (this rhs : ref StrongT) : M BaseT (ref StrongT) :=
  compound prim_sub (field_value this) (field_value rhs);; ret this.

(** [operator-(StrongT lhs, const StrongT &rhs) { return lhs -= rhs; }] *)
Definition operator_sub (lhs : StrongT) (rhs : ref StrongT) : M BaseT StrongT :=
  with_strong lhs (fun lhs => r <- operator_sub_assign lhs rhs;; copy_of r).

(** *** Scaling by a scalar of the representation type (lines 82-102) *)

(** [operator*=(const BaseT &rhs) { this->value *= rhs; return *this; }] *)
Definition operator_mul_assign_base (this : ref StrongT) (rhs : ref BaseT)
    : M BaseT (ref StrongT) :=
  compound prim_mul (field_value this) rhs;; ret this.

(** [operator*(StrongT lhs, const BaseT &rhs) { return lhs *= rhs; }] *)
Definition operator_mul_base (lhs : StrongT) (rhs : ref BaseT) : M BaseT StrongT :=
  with_strong lhs (fun lhs => r <- operator_mul_assign_base lhs rhs;; copy_of r).

(** [operator*(const BaseT &lhs, StrongT rhs) { return rhs *= lhs; }] *)
Definition operator_base_mul (lhs : ref BaseT) (rhs : StrongT) : M BaseT StrongT :=
  with_strong rhs (fun rhs => r <- operator_mul_assign_base rhs lhs;; copy_of r).

(** [operator/=(const BaseT &rhs) { this->value /= rhs; return *this; }] *)
Definition operator_div_assign_base (this : ref StrongT) (rhs : ref BaseT)
    : M BaseT (ref StrongT) :=
  compound prim_div (field_value this) rhs;; ret this.

(** [operator/(StrongT lhs, const BaseT &rhs) { return lhs /= rhs; }] *)
Definition operator_div_base (lhs : StrongT) (rhs : ref BaseT) : M BaseT StrongT :=
  with_strong lhs (fun lhs => r <- operator_div_assign_base lhs rhs;; copy_of r).

(** *** Increment and decrement (lines 105-122) *)

(** [operator++() { ++value; return *this; }] *)
Definition operator_pre_inc (this : ref StrongT) : M BaseT (ref StrongT) :=
  v <- load (field_value this);;
  r <- defined (prim_incr v);;
  assign (field_value this) r;;
  ret this.

(** [operator++(int)]: copy [this] into [result], apply prefix [++] to [this], return [result] *)
Definition operator_post_inc (this : ref StrongT) : M BaseT StrongT :=
  result <- copy_of this;;
  operator_pre_inc this;;
  ret result.

(** [operator--() { --value; return *this; }] *)
Definition operator_pre_dec (this : ref StrongT) : M BaseT (ref StrongT) :=
  v <- load (field_value this);;
  r <- defined (prim_decr v);;
  assign (field_value this) r;;
  ret this.

(** [operator--(int)]: copy [this] into [result], apply prefix [--] to [this], return [result] *)
Definition operator_post_dec (this : ref StrongT) : M BaseT StrongT :=
  result <- copy_of this;;
  operator_pre_dec this;;
  ret result.

(** *** Comparison of strong values (lines 125-142) *)

(** [operator==(lhs, rhs) { return lhs.value == rhs.value; }] *)
Definition operator_eq (lhs rhs : ref StrongT) : M BaseT bool :=
  x <- load (field_value lhs);; y <- load (field_value rhs);; ret (prim_eq x y).

(** [operator!=(lhs, rhs) { return !(lhs == rhs); }] *)
Definition operator_ne (lhs rhs : ref StrongT) : M BaseT bool :=
  b <- operator_eq lhs rhs;; ret (negb b).

(** [operator<(lhs, rhs) { return lhs.value < rhs.value; }] *)
Definition operator_lt (lhs rhs : ref StrongT) : M BaseT bool :=
  x <- load (field_value lhs);; y <- load (field_value rhs);; ret (prim_lt x y).

(** [operator>(lhs, rhs) { return rhs < lhs; }] *)
Definition operator_gt (lhs rhs : ref StrongT) : M BaseT bool :=
  operator_lt rhs lhs.

(** [operator<=(lhs, rhs) { return !(rhs < lhs); }] *)
Definition operator_le (lhs rhs : ref StrongT) : M BaseT bool :=
  b <- operator_lt rhs lhs;; ret (negb b).

(** [operator>=(lhs, rhs) { return !(lhs < rhs); }] *)
Definition operator_ge (lhs rhs : ref StrongT) : M BaseT bool :=
  b <- operator_lt lhs rhs;; ret (negb b).

(** *** Comparison with a temporary of the representation type
    (lines 146-181): the [const BaseT &&] operand is a reference *)

(** [operator==(const StrongT &lhs, const BaseT &&rhs) { return lhs.value == rhs; }], and likewise the next five *)
Definition operator_eq_base (lhs : ref StrongT) (rhs : ref BaseT) : M BaseT bool :=
  x <- load (field_value lhs);; y <- load rhs;; ret (prim_eq x y).

Definition operator_ne_base (lhs : ref StrongT) (rhs : ref BaseT) : M BaseT bool :=
  x <- load (field_value lhs);; y <- load rhs;; ret (prim_ne x y).

Definition operator_lt_base (lhs : ref StrongT) (rhs : ref BaseT) : M BaseT bool :=
  x <- load (field_value lhs);; y <- load rhs;; ret (prim_lt x y).

Definition operator_gt_base (lhs : ref StrongT) (rhs : ref BaseT) : M BaseT bool :=
  x <- load (field_value lhs);; y <- load rhs;; ret (prim_gt x y).

Definition operator_le_base (lhs : ref StrongT) (rhs : ref BaseT) : M BaseT bool :=
  x <- load (field_value lhs);; y <- load rhs;; ret (prim_le x y).

Definition operator_ge_base (lhs : ref StrongT) (rhs : ref BaseT) : M BaseT bool :=
  x <- load (field_value lhs);; y <- load rhs;; ret (prim_ge x y).

(** [operator==(const BaseT &&lhs, const StrongT &rhs) { return lhs == rhs.value; }], and likewise the next five *)
Definition operator_base_eq (lhs : ref BaseT) (rhs : ref StrongT) : M BaseT bool :=
  x <- load lhs;; y <- load (field_value rhs);; ret (prim_eq x y).

Definition operator_base_ne (lhs : ref BaseT) (rhs : ref StrongT) : M BaseT bool :=
  x <- load lhs;; y <- load (field_value rhs);; ret (prim_ne x y).

Definition operator_base_lt (lhs : ref BaseT) (rhs : ref StrongT) : M BaseT bool :=
  x <- load lhs;; y <- load (field_value rhs);; ret (prim_lt x y).

Definition operator_base_gt (lhs : ref BaseT) (rhs : ref StrongT) : M BaseT bool :=
  x <- load lhs;; y <- load (field_value rhs);; ret (prim_gt x y).

Definition operator_base_le (lhs : ref BaseT) (rhs : ref StrongT) : M BaseT bool :=
  x <- load lhs;; y <- load (field_value rhs);; ret (prim_le x y).

Definition operator_base_ge (lhs : ref BaseT) (rhs : ref StrongT) : M BaseT bool :=
  x <- load lhs;; y <- load (field_value rhs);; ret (prim_ge x y).

(** *** The iostream interface (lines 184-189) *)

(** The library's [os << x] and [is >> x] for an lvalue [x] of the
    representation type. *)
Definition base_insert (os : ostream) (x : ref BaseT) : M BaseT ostream :=
  v <- load x;; ret (prim_insert os v).

Definition base_extract (ins : istream) (x : ref BaseT) : M BaseT istream :=
  old <- load x;;
  assign x (snd (prim_extract ins old));;
  ret (fst (prim_extract ins old)).

(** [operator<<(std::ostream &os, const StrongT &rhs) { return os << rhs.value; }] *)
Definition operator_insert (os : ostream) (rhs : ref StrongT) : M BaseT ostream :=
  base_insert os (field_value rhs).

(** [operator>>(std::istream &is, StrongT &rhs) { return is >> rhs.value; }] *)
Definition operator_extract (ins : istream) (rhs : ref StrongT) : M BaseT istream :=
  base_extract ins (field_value rhs).

(** *** The operators by symbol *)

Definition operator_assign (op : arith_op)
    : ref StrongT -> ref StrongT -> M BaseT (ref StrongT) :=
  match op with
  | Mul => operator_mul_assign
  | Div => operator_div_assign
  | Add => operator_add_assign
  | Sub => operator_sub_assign
  end.

Definition operator_arith (op : arith_op)
    : StrongT -> ref StrongT -> M BaseT StrongT :=
  match op with
  | Mul => operator_mul
  | Div => operator_div
  | Add => operator_add
  | Sub => operator_sub
  end.

Definition operator_cmp (op : cmp_op) : ref StrongT -> ref StrongT -> M BaseT bool :=
  match op with
  | CmpEq => operator_eq
  | CmpNe => operator_ne
  | CmpLt => operator_lt
  | CmpGt => operator_gt
  | CmpLe => operator_le
  | CmpGe => operator_ge
  end.

Definition operator_cmp_base (op : cmp_op) : ref StrongT -> ref BaseT -> M BaseT bool :=
  match op with
  | CmpEq => operator_eq_base
  | CmpNe => operator_ne_base
  | CmpLt => operator_lt_base
  | CmpGt => operator_gt_base
  | CmpLe => operator_le_base
  | CmpGe => operator_ge_base
  end.

Definition operator_base_cmp (op : cmp_op) : ref BaseT -> ref StrongT -> M BaseT bool :=
  match op with
  | CmpEq => operator_base_eq
  | CmpNe => operator_base_ne
  | CmpLt => operator_base_lt
  | CmpGt => operator_base_gt
  | CmpLe => operator_base_le
  | CmpGe => operator_base_ge
  end.

(** *** Operator expressions at the call site *)

(** [a op b] for two named strong values: the by-value parameter [lhs]
    is copy-initialised from [a]. *)
Definition expr_arith (op : arith_op) (a b : ref StrongT) : M BaseT StrongT :=
  lhs <- copy_of a;; operator_arith op lhs b.

(** [a * k], [k * a] and [a / k] for a named strong value [a] and a
    scalar with value [k]. *)
Definition expr_mul_base (a : ref StrongT) (k : BaseT) : M BaseT StrongT :=
  lhs <- copy_of a;; with_base k (fun rhs => operator_mul_base lhs rhs).

Definition expr_base_mul (k : BaseT) (a : ref StrongT) : M BaseT StrongT :=
  rhs <- copy_of a;; with_base k (fun lhs => operator_base_mul lhs rhs).

Definition expr_div_base (a : ref StrongT) (k : BaseT) : M BaseT StrongT :=
  lhs <- copy_of a;; with_base k (fun rhs => operator_div_base lhs rhs).

(** [a op k] and [k op a] for a named strong value [a] and a temporary of
    the representation type with value [k]. *)
Definition expr_cmp_base (op : cmp_op) (a : ref StrongT) (k : BaseT) : M BaseT bool :=
  with_base k (fun rhs => operator_cmp_base op a rhs).

Definition expr_base_cmp (op : cmp_op) (k : BaseT) (a : ref StrongT) : M BaseT bool :=
  with_base k (fun lhs => operator_base_cmp op lhs a).

(** [a op StrongT(r)] and [StrongT(r) op a]: the same comparisons with the
    scalar wrapped first. *)
Definition expr_cmp_wrapped (op : cmp_op) (a : ref StrongT) (r : BaseT) : M BaseT bool :=
  with_strong (StrongType_ctor r) (fun rhs => operator_cmp op a rhs).

Definition expr_wrapped_cmp (op : cmp_op) (r : BaseT) (a : ref StrongT) : M BaseT bool :=
  with_strong (StrongType_ctor r) (fun lhs => operator_cmp op lhs a).
End StrongType.

(** ** Compile-time behaviour *)

Module Sema.

(** *** The constraints on the template arguments (lines 34-38) *)

(** The categories of types that [std::is_arithmetic] and [std::is_enum]
    tell apart.  [unscoped_enum] is a plain [enum], [scoped_enum] an
    [enum class]. *)
Inductive type_category :=
  | integral
  | floating_point
  | unscoped_enum
  | scoped_enum
  | pointer
  | class_type.

(** [std::is_arithmetic<T>::value]: integral or floating-point. *)
Definition is_arithmetic (t : type_category) : bool :=
  match t with
  | integral | floating_point => true
  | _ => false
  end.

(** [std::is_enum<T>::value]: any enumeration type, scoped or not. *)
Definition is_enum (t : type_category) : bool :=
  match t with
  | unscoped_enum | scoped_enum => true
  | _ => false
  end.

(** [static_assert(cond, msg)]: the diagnostics it emits. *)
Definition static_assert (cond : bool) (msg : string) : list string :=
  if cond then [] else [msg].

(** Instantiating [StrongType<enumT, enumV, BaseT>]: the messages of the
    assertions that fail; none means the instantiation is accepted. *)
Definition instantiate (enumT BaseT : type_category) : list string :=
  static_assert (is_arithmetic BaseT)
    "StrongType only available for arithmetic types"
  ++ static_assert (is_enum enumT)
    "StrongType must be instantiated with scoped enum (enum class)".

Definition accepted (enumT BaseT : type_category) : bool :=
  match instantiate enumT BaseT with
  | [] => true
  | _ => false
  end.

(** *** Which overload accepts which operands *)

(** An operand of a binary operator expression: a strong value, a value
    of the representation type, or a value of another arithmetic type;
    named (lvalue) or temporary (rvalue). *)
Inductive operand_type := Strong | Base | OtherArithmetic.
Inductive value_category := lvalue | rvalue.
Record operand := { type_of : operand_type; category_of : value_category }.

(** The parameter types the friend operators declare. *)
Inductive parameter :=
  | StrongT_value   (* StrongT *)
  | StrongT_cref    (* const StrongT & *)
  | BaseT_cref      (* const BaseT & *)
  | BaseT_crref.    (* const BaseT && *)

(** Whether an argument can initialise a parameter.  Constructor and
    conversion operator are both [explicit] (lines 44-45), so no implicit
    conversion leads from the representation type to the wrapper or
    back.  A reference to const binds to lvalues and rvalues, an rvalue
    reference to rvalues only.  A value of another arithmetic type is
    converted to a temporary of the representation type, which is an
    rvalue whatever the operand was. *)
Definition binds (p : parameter) (a : operand) : bool :=
  match p, type_of a, category_of a with
  | StrongT_value, Strong, _ => true
  | StrongT_cref, Strong, _ => true
  | BaseT_cref, Base, _ => true
  | BaseT_cref, OtherArithmetic, _ => true
  | BaseT_crref, Base, rvalue => true
  | BaseT_crref, OtherArithmetic, _ => true
  | _, _, _ => false
  end.

Inductive symbol := arith (op : arith_op) | cmp (op : cmp_op).

(** The three shapes of friend operator in the header. *)
Inductive form := strong_strong | strong_base | base_strong.

(** The declared signatures: lines 56-79, 86-102, 125-181. *)
Definition declared (s : symbol) (f : form) : option (parameter * parameter) :=
  match s, f with
  | arith _, strong_strong => Some (StrongT_value, StrongT_cref)
  | arith Mul, strong_base => Some (StrongT_value, BaseT_cref)
  | arith Mul, base_strong => Some (BaseT_cref, StrongT_value)
  | arith Div, strong_base => Some (StrongT_value, BaseT_cref)
  | arith _, _ => None
  | cmp _, strong_strong => Some (StrongT_cref, StrongT_cref)
  | cmp _, strong_base => Some (StrongT_cref, BaseT_crref)
  | cmp _, base_strong => Some (BaseT_crref, StrongT_cref)
  end.

Definition viable (s : symbol) (a1 a2 : operand) (f : form) : bool :=
  match declared s f with
  | Some (p1, p2) => binds p1 a1 && binds p2 a2
  | None => false
  end.

(** The viable overloads for [a1 s a2].  The built-in operators are never
    candidates when an operand is a strong value, as that would need the
    implicit conversion to the representation type.  An empty result
    means the expression does not compile. *)
Definition resolve (s : symbol) (a1 a2 : operand) : list form :=
  List.filter (viable s a1 a2) [strong_strong; strong_base; base_strong].

Definition named (t : operand_type) : operand :=
  {| type_of := t; category_of := lvalue |}.
Definition temporary (t : operand_type) : operand :=
  {| type_of := t; category_of := rvalue |}.

End Sema.

(** The comparison function behind each form of overload. *)
Section Dispatch.
Context {BaseT : Type} {arith : Arithmetic BaseT}.

Definition call_cmp (op : cmp_op) (f : Sema.form) : loc -> loc -> M BaseT bool :=
  match f with
  | Sema.strong_strong => operator_cmp op
  | Sema.strong_base => operator_cmp_base op
  | Sema.base_strong => operator_base_cmp op
  end.
End Dispatch.

(** ** Concrete instances *)

(** Two tags of one scoped enumeration. *)
Inductive Unit := Meters | Seconds.

(** A store with two objects, at locations 1 and 2. *)
Definition two_objects {BaseT : Type} (v1 v2 : BaseT) : gmap loc BaseT :=
  <[2%positive := v2]> (<[1%positive := v1]> ∅).

(** A store with one object, at location 1. *)
Definition one_object {BaseT : Type} (v1 : BaseT) : gmap loc BaseT :=
  <[1%positive := v1]> ∅.

(** The double [0.5]. *)
Definition dbl_half : double := S754_finite false 4503599627370496 (-53).

(** ** Further forms at the call site *)

(** The comparison that [k op a] stands for once its operands are
    exchanged: [k < a] reads [a > k], and so on. *)
Definition mirror (op : cmp_op) : cmp_op :=
  match op with
  | CmpEq => CmpEq
  | CmpNe => CmpNe
  | CmpLt => CmpGt
  | CmpGt => CmpLt
  | CmpLe => CmpGe
  | CmpGe => CmpLe
  end.

Section CopyAssignment.
Context {enumT : Type} {enumV : enumT} {BaseT : Type}.
Local Abbreviation StrongT := (StrongType enumT enumV BaseT).
Local Open Scope cpp_scope.

(** The copy assignment [a = rhs] that the struct gets implicitly: it
    assigns the one member and returns the object assigned to. *)
Definition operator_copy_assign (this : ref StrongT) (rhs : StrongT)
    : M BaseT (ref StrongT) :=
  assign (field_value this) (value rhs);; ret this.
End CopyAssignment.

(** * Properties *)

(** ** Running the store operations *)

Section StoreFacts.
Context {BaseT : Type}.
Implicit Types (m : gmap loc BaseT) (x y p : loc) (v : BaseT).

Lemma load_run m x v : m !! x = Some v -> load x m = Some (v, m).
Proof. intros Hx. unfold load. now rewrite Hx. Qed.

Lemma assign_run m x v v' :
  m !! x = Some v -> assign x v' m = Some (tt, <[x := v']> m).
Proof. intros Hx. unfold assign. now rewrite Hx. Qed.

Lemma fresh_unused m : m !! fresh (dom m) = None.
Proof. apply not_elem_of_dom, is_fresh. Qed.

Lemma fresh_other m x v : m !! x = Some v -> x <> fresh (dom m).
Proof. intros Hx ->. rewrite fresh_unused in Hx. discriminate. Qed.

(** A cell that was allocated, possibly overwritten, and freed again
    leaves the store as it was. *)
Lemma scope_exit m p v : m !! p = None -> delete p (<[p := v]> m) = m.
Proof. intros Hp. rewrite delete_insert_eq. now apply delete_id. Qed.

Lemma scope_exit_written m p v v' :
  m !! p = None -> delete p (<[p := v']> (<[p := v]> m)) = m.
Proof. intros Hp. rewrite insert_insert_eq. now apply scope_exit. Qed.

Lemma compound_run (f : BaseT -> BaseT -> option BaseT) m x y a b :
  m !! x = Some a -> m !! y = Some b ->
  compound f x y m = option_map (fun r => (tt, <[x := r]> m)) (f a b).
Proof.
  intros Hx Hy. unfold compound, bind.
  rewrite (load_run _ _ _ Hy), (load_run _ _ _ Hx). unfold defined.
  destruct (f a b) as [r|]; simpl; [|reflexivity].
  now rewrite (assign_run _ _ _ r Hx).
Qed.
End StoreFacts.

(** ** Running the wrapper's operators *)

Section Running.
Context {enumT : Type} {enumV : enumT} {BaseT : Type}.
Context {arith : Arithmetic BaseT}.
Local Abbreviation StrongT := (StrongType enumT enumV BaseT).
Implicit Types (m : gmap loc BaseT) (a b x : loc) (va vb k : BaseT).
Local Open Scope cpp_scope.

Lemma copy_of_run m a va :
  m !! a = Some va -> copy_of (enumV := enumV) a m = Some (mkStrongType va, m).
Proof.
  intros Ha. unfold copy_of, bind, field_value.
  now rewrite (load_run _ _ _ Ha).
Qed.

(** A call that applies a compound assignment to its by-value parameter
    and returns a copy of it: the result is the primitive's, and the
    store is as before the call. *)
Lemma call_by_value (f : BaseT -> BaseT -> option BaseT) (lhs : StrongT) m b vb :
  m !! b = Some vb ->
  with_strong lhs (fun p => r <- (compound f p b;; ret p);; copy_of r) m
  = option_map (fun r => (mkStrongType (enumV := enumV) r, m)) (f (value lhs) vb).
Proof.
  intros Hb. unfold with_strong, bind at 1 2, alloc.
  set (p := fresh (dom m)).
  assert (Hp : m !! p = None) by apply fresh_unused.
  assert (Hne : b <> p) by (now apply fresh_other with vb).
  unfold bind at 1 2.
  rewrite (compound_run f _ p b (value lhs) vb);
    [| apply lookup_insert_eq | now rewrite lookup_insert_ne].
  destruct (f (value lhs) vb) as [r|]; simpl; [|reflexivity].
  unfold ret at 1.
  rewrite (copy_of_run _ p r) by apply lookup_insert_eq.
  unfold bind, free, ret. simpl.
  now rewrite scope_exit_written.
Qed.

(** A computation that leaves the store alone, run on a scalar with
    storage of its own. *)
Lemma with_base_run {A} (body : loc -> M BaseT A) (r : option A) m k :
  (forall p, m !! p = None ->
             body p (<[p := k]> m) = option_map (fun u => (u, <[p := k]> m)) r) ->
  with_base k body m = option_map (fun u => (u, m)) r.
Proof.
  intros Hbody. unfold with_base, bind at 1, alloc.
  set (p := fresh (dom m)).
  assert (Hp : m !! p = None) by apply fresh_unused.
  unfold bind at 1. rewrite (Hbody p Hp).
  destruct r as [u|]; simpl; [|reflexivity].
  unfold bind, free, ret. simpl. now rewrite scope_exit.
Qed.

Lemma operator_assign_run (op : arith_op) m a b va vb :
  m !! a = Some va -> m !! b = Some vb ->
  operator_assign op a b m
  = option_map (fun r => (a, <[a := r]> m)) (prim_arith op va vb).
Proof.
  intros Ha Hb.
  destruct op; simpl;
    unfold operator_mul_assign, operator_div_assign, operator_add_assign,
      operator_sub_assign, field_value, bind;
    rewrite (compound_run _ _ _ _ _ _ Ha Hb);
    match goal with |- context [option_map _ ?o] => destruct o end;
    reflexivity.
Qed.

Lemma operator_arith_run (op : arith_op) (lhs : StrongT) m b vb :
  m !! b = Some vb ->
  operator_arith op lhs b m
  = option_map (fun r => (mkStrongType r, m)) (prim_arith op (value lhs) vb).
Proof.
  intros Hb. destruct op; simpl; now apply call_by_value.
Qed.

Lemma expr_arith_run (op : arith_op) m a b va vb :
  m !! a = Some va -> m !! b = Some vb ->
  expr_arith (enumV := enumV) op a b m
  = option_map (fun r => (mkStrongType r, m)) (prim_arith op va vb).
Proof.
  intros Ha Hb. unfold expr_arith, bind.
  rewrite (copy_of_run _ _ _ Ha).
  now rewrite (operator_arith_run op _ m b vb Hb).
Qed.
End Running.

Section RunningScalar.
Context {enumT : Type} {enumV : enumT} {BaseT : Type}.
Context {arith : Arithmetic BaseT}.
Local Abbreviation StrongT := (StrongType enumT enumV BaseT).
Implicit Types (m : gmap loc BaseT) (a b x : loc) (va vb k : BaseT).
Local Open Scope cpp_scope.

Lemma expr_mul_base_run m a va k :
  m !! a = Some va ->
  expr_mul_base (enumV := enumV) a k m
  = option_map (fun r => (mkStrongType r, m)) (prim_mul va k).
Proof.
  intros Ha. unfold expr_mul_base, bind. rewrite (copy_of_run _ _ _ Ha).
  rewrite (with_base_run _ (option_map mkStrongType (prim_mul va k))).
  - now destruct (prim_mul va k).
  - intros p Hp. unfold operator_mul_base, operator_mul_assign_base, field_value.
    rewrite (call_by_value prim_mul _ _ p k) by apply lookup_insert_eq.
    simpl. now destruct (prim_mul va k).
Qed.

Lemma expr_base_mul_run m a va k :
  m !! a = Some va ->
  expr_base_mul (enumV := enumV) k a m
  = option_map (fun r => (mkStrongType r, m)) (prim_mul va k).
Proof.
  intros Ha. unfold expr_base_mul, bind. rewrite (copy_of_run _ _ _ Ha).
  rewrite (with_base_run _ (option_map mkStrongType (prim_mul va k))).
  - now destruct (prim_mul va k).
  - intros p Hp. unfold operator_base_mul, operator_mul_assign_base, field_value.
    rewrite (call_by_value prim_mul _ _ p k) by apply lookup_insert_eq.
    simpl. now destruct (prim_mul va k).
Qed.

Lemma expr_div_base_run m a va k :
  m !! a = Some va ->
  expr_div_base (enumV := enumV) a k m
  = option_map (fun r => (mkStrongType r, m)) (prim_div va k).
Proof.
  intros Ha. unfold expr_div_base, bind. rewrite (copy_of_run _ _ _ Ha).
  rewrite (with_base_run _ (option_map mkStrongType (prim_div va k))).
  - now destruct (prim_div va k).
  - intros p Hp. unfold operator_div_base, operator_div_assign_base, field_value.
    rewrite (call_by_value prim_div _ _ p k) by apply lookup_insert_eq.
    simpl. now destruct (prim_div va k).
Qed.

(** The comparison functions read both operands and nothing else. *)
Lemma operator_cmp_base_run (op : cmp_op) m a x va k :
  m !! a = Some va -> m !! x = Some k ->
  operator_cmp_base op a x m = Some (prim_cmp op va k, m).
Proof.
  intros Ha Hx.
  destruct op; simpl;
    unfold operator_eq_base, operator_ne_base, operator_lt_base,
      operator_gt_base, operator_le_base, operator_ge_base, field_value, bind;
    now rewrite (load_run _ _ _ Ha), (load_run _ _ _ Hx).
Qed.

Lemma operator_base_cmp_run (op : cmp_op) m a x va k :
  m !! a = Some va -> m !! x = Some k ->
  operator_base_cmp op x a m = Some (prim_cmp op k va, m).
Proof.
  intros Ha Hx.
  destruct op; simpl;
    unfold operator_base_eq, operator_base_ne, operator_base_lt,
      operator_base_gt, operator_base_le, operator_base_ge, field_value, bind;
    now rewrite (load_run _ _ _ Hx), (load_run _ _ _ Ha).
Qed.

(** The six strong comparisons compute what the header derives from the
    primitive's [==] and [<]. *)
Lemma operator_cmp_run (op : cmp_op) m a b va vb :
  m !! a = Some va -> m !! b = Some vb ->
  operator_cmp op a b m = Some (derived_cmp op va vb, m).
Proof.
  intros Ha Hb.
  destruct op; simpl;
    unfold operator_ne, operator_gt, operator_le, operator_ge,
      operator_eq, operator_lt, field_value, bind;
    rewrite ?(load_run _ _ _ Ha), ?(load_run _ _ _ Hb), ?(load_run _ _ _ Ha);
    reflexivity.
Qed.

Lemma expr_cmp_base_run (op : cmp_op) m a va k :
  m !! a = Some va ->
  expr_cmp_base op a k m = Some (prim_cmp op va k, m).
Proof.
  intros Ha. unfold expr_cmp_base.
  rewrite (with_base_run _ (Some (prim_cmp op va k))); [reflexivity|].
  intros p Hp. apply operator_cmp_base_run.
  - rewrite lookup_insert_ne; [assumption|]. intros ->. congruence.
  - apply lookup_insert_eq.
Qed.

Lemma expr_base_cmp_run (op : cmp_op) m a va k :
  m !! a = Some va ->
  expr_base_cmp op k a m = Some (prim_cmp op k va, m).
Proof.
  intros Ha. unfold expr_base_cmp.
  rewrite (with_base_run _ (Some (prim_cmp op k va))); [reflexivity|].
  intros p Hp. apply operator_base_cmp_run.
  - rewrite lookup_insert_ne; [assumption|]. intros ->. congruence.
  - apply lookup_insert_eq.
Qed.

Lemma with_strong_run {A} (body : loc -> M BaseT A) (r : option A) m (s : StrongT) :
  (forall p, m !! p = None ->
     body p (<[p := value s]> m) = option_map (fun u => (u, <[p := value s]> m)) r) ->
  with_strong s body m = option_map (fun u => (u, m)) r.
Proof. apply with_base_run. Qed.

Lemma expr_cmp_wrapped_run (op : cmp_op) m a va k :
  m !! a = Some va ->
  expr_cmp_wrapped (enumV := enumV) op a k m = Some (derived_cmp op va k, m).
Proof.
  intros Ha. unfold expr_cmp_wrapped.
  rewrite (with_strong_run _ (Some (derived_cmp op va k))); [reflexivity|].
  intros p Hp. apply operator_cmp_run.
  - rewrite lookup_insert_ne; [assumption|]. intros ->. congruence.
  - apply lookup_insert_eq.
Qed.

Lemma expr_wrapped_cmp_run (op : cmp_op) m a va k :
  m !! a = Some va ->
  expr_wrapped_cmp (enumV := enumV) op k a m = Some (derived_cmp op k va, m).
Proof.
  intros Ha. unfold expr_wrapped_cmp.
  rewrite (with_strong_run _ (Some (derived_cmp op k va))); [reflexivity|].
  intros p Hp. apply operator_cmp_run.
  - apply lookup_insert_eq.
  - rewrite lookup_insert_ne; [assumption|]. intros ->. congruence.
Qed.
End RunningScalar.

Section RunningRest.
Context {enumT : Type} {enumV : enumT} {BaseT : Type}.
Context {arith : Arithmetic BaseT} {io : Streamable BaseT}.
Local Abbreviation StrongT := (StrongType enumT enumV BaseT).
Implicit Types (m : gmap loc BaseT) (a b x : loc) (va vb k : BaseT).
Local Open Scope cpp_scope.

Lemma operator_pre_inc_run m a va :
  m !! a = Some va ->
  operator_pre_inc a m = option_map (fun r => (a, <[a := r]> m)) (prim_incr va).
Proof.
  intros Ha. unfold operator_pre_inc, field_value, bind.
  rewrite (load_run _ _ _ Ha). unfold defined.
  destruct (prim_incr va) as [r|]; simpl; [|reflexivity].
  now rewrite (assign_run _ _ _ r Ha).
Qed.

Lemma operator_pre_dec_run m a va :
  m !! a = Some va ->
  operator_pre_dec a m = option_map (fun r => (a, <[a := r]> m)) (prim_decr va).
Proof.
  intros Ha. unfold operator_pre_dec, field_value, bind.
  rewrite (load_run _ _ _ Ha). unfold defined.
  destruct (prim_decr va) as [r|]; simpl; [|reflexivity].
  now rewrite (assign_run _ _ _ r Ha).
Qed.

Lemma operator_post_inc_run m a va :
  m !! a = Some va ->
  operator_post_inc (enumV := enumV) a m
  = option_map (fun r => (mkStrongType va, <[a := r]> m)) (prim_incr va).
Proof.
  intros Ha. unfold operator_post_inc, bind.
  rewrite (copy_of_run _ _ _ Ha), (operator_pre_inc_run _ _ _ Ha).
  now destruct (prim_incr va).
Qed.

Lemma operator_post_dec_run m a va :
  m !! a = Some va ->
  operator_post_dec (enumV := enumV) a m
  = option_map (fun r => (mkStrongType va, <[a := r]> m)) (prim_decr va).
Proof.
  intros Ha. unfold operator_post_dec, bind.
  rewrite (copy_of_run _ _ _ Ha), (operator_pre_dec_run _ _ _ Ha).
  now destruct (prim_decr va).
Qed.

Lemma base_insert_run (os : ostream) m x v :
  m !! x = Some v -> base_insert os x m = Some (prim_insert os v, m).
Proof. intros Hx. unfold base_insert, bind. now rewrite (load_run _ _ _ Hx). Qed.

Lemma base_extract_run (ins : istream) m x v :
  m !! x = Some v ->
  base_extract ins x m
  = Some (fst (prim_extract ins v), <[x := snd (prim_extract ins v)]> m).
Proof.
  intros Hx. unfold base_extract, bind.
  rewrite (load_run _ _ _ Hx). now rewrite (assign_run _ _ _ _ Hx).
Qed.
End RunningRest.

(** ** The representation types compare lawfully *)

Lemma int_compare_swap (x y : int) :
  prim_compare (Arithmetic := int_arithmetic) y x
  = option_map CompOpp (prim_compare (Arithmetic := int_arithmetic) x y).
Proof. simpl. f_equal. apply Z.compare_antisym. Qed.

Lemma unsigned_compare_swap (x y : unsigned) :
  prim_compare (Arithmetic := unsigned_arithmetic) y x
  = option_map CompOpp (prim_compare (Arithmetic := unsigned_arithmetic) x y).
Proof. simpl. f_equal. apply Z.compare_antisym. Qed.

Lemma SFcompare_swap (x y : spec_float) :
  SFcompare y x = option_map CompOpp (SFcompare x y).
Proof.
  destruct x as [sx|sx| |sx mx ex], y as [sy|sy| |sy my ey]; simpl;
    try reflexivity;
    try (destruct sx; reflexivity);
    try (destruct sy; reflexivity);
    try (destruct sx, sy; reflexivity).
  destruct sx, sy; try reflexivity; simpl;
    rewrite (Z.compare_antisym ex ey);
    destruct (ex ?= ey); simpl; try reflexivity;
    change Eq with (CompOpp Eq) at 1;
    rewrite <- (Pos.compare_cont_antisym mx my Eq);
    now rewrite ?CompOpp_involutive.
Qed.

Lemma int_lawful : @LawfulCompare int int_arithmetic.
Proof. constructor. exact int_compare_swap. Qed.

Lemma unsigned_lawful : @LawfulCompare unsigned unsigned_arithmetic.
Proof. constructor. exact unsigned_compare_swap. Qed.

Lemma double_lawful : @LawfulCompare double double_arithmetic.
Proof. constructor. exact SFcompare_swap. Qed.

(** Integers are always ordered. *)
Lemma int_ordered (x y : int) :
  prim_compare (Arithmetic := int_arithmetic) x y <> None.
Proof. discriminate. Qed.

Lemma unsigned_ordered (x y : unsigned) :
  prim_compare (Arithmetic := unsigned_arithmetic) x y <> None.
Proof. discriminate. Qed.

(** Two doubles are unordered exactly when one of them is a NaN. *)
Lemma double_unordered (x y : double) :
  prim_compare (Arithmetic := double_arithmetic) x y = None
  <-> x = S754_nan \/ y = S754_nan.
Proof.
  simpl. split.
  - destruct x, y; simpl; intros Hc; try discriminate; auto.
  - intros [-> | ->]; [reflexivity | now destruct x].
Qed.

Section Ordered.
Context {BaseT : Type} {arith : Arithmetic BaseT} {lawful : LawfulCompare BaseT}.

(** On ordered operands the comparisons derived from [==] and [<] are
    the primitive's. *)
Lemma derived_cmp_ordered (op : cmp_op) (x y : BaseT) :
  prim_compare x y <> None -> derived_cmp op x y = prim_cmp op x y.
Proof.
  intros Hord.
  destruct op; simpl; unfold prim_ne, prim_eq, prim_lt, prim_gt, prim_le, prim_ge;
    try reflexivity; rewrite ?(prim_compare_swap x y);
    destruct (prim_compare x y) as [[]|]; simpl; congruence.
Qed.

Lemma prim_le_total (x y : BaseT) :
  prim_compare x y <> None -> prim_le x y = true \/ prim_le y x = true.
Proof.
  intros Hord. unfold prim_le. rewrite (prim_compare_swap x y).
  destruct (prim_compare x y) as [[]|]; simpl; auto; congruence.
Qed.

Lemma prim_le_antisym (x y : BaseT) :
  prim_le x y = true -> prim_le y x = true -> prim_eq x y = true.
Proof.
  unfold prim_le, prim_eq. rewrite (prim_compare_swap x y).
  destruct (prim_compare x y) as [[]|]; simpl; congruence.
Qed.
End Ordered.

(** ** The wrapper's contract *)

Section Contract.
Context {enumT : Type} {enumV : enumT} {BaseT : Type}.
Context {arith : Arithmetic BaseT}.
Local Abbreviation StrongT := (StrongType enumT enumV BaseT).
Implicit Types (m : gmap loc BaseT) (a b x : loc) (va vb k v : BaseT).
Local Open Scope cpp_scope.

(** C1 (arithmetic homomorphism).  For strong values [a] and [b] of one
    tag and representation type, holding [va] and [vb], and each [op] of
    [*], [/], [+], [-]: [a op= b] leaves in [a], in place, what the
    primitive's [va op= vb] gives and returns a reference to [a];
    [a op b] returns a strong value holding that same primitive result.
    Both are undefined exactly when the primitive operation is (overflow
    of a signed integer, integer division by zero); they round and wrap
    as the primitive does, since the result is the primitive's own. *)
Theorem arithmetic_homomorphism (op : arith_op) m a b va vb :
  m !! a = Some va -> m !! b = Some vb ->
  operator_assign op a b m
    = option_map (fun r => (a, <[a := r]> m)) (prim_arith op va vb)
  /\ expr_arith (enumV := enumV) op a b m
    = option_map (fun r => (mkStrongType r, m)) (prim_arith op va vb)
  /\ forall lhs : StrongT,
      operator_arith op lhs b m
      = option_map (fun r => (mkStrongType r, m)) (prim_arith op (value lhs) vb).
Proof.
  intros Ha Hb. split; [|split].
  - now apply operator_assign_run.
  - now apply expr_arith_run.
  - intros lhs. now apply operator_arith_run.
Qed.

(** C4 (round trip).  A strong value constructed from [v] holds [v]; on
    an object so constructed the explicit conversion and the read-only
    accessor both return [v] itself, whatever [v] is (the model of a
    floating-point value is its IEEE 754 datum, with a single NaN); and
    a value assigned through the mutable accessor is what the read-only
    accessor returns next. *)
Theorem round_trip (v : BaseT) m :
  value (StrongType_ctor (enumV := enumV) v) = v
  /\ with_strong (StrongType_ctor (enumV := enumV) v) operator_BaseT m = Some (v, m)
  /\ with_strong (StrongType_ctor (enumV := enumV) v) as_base_const m = Some (v, m)
  /\ forall v' : BaseT,
      with_strong (StrongType_ctor (enumV := enumV) v)
        (fun x => r <- as_base x;; assign r v';; as_base_const x) m
      = Some (v', m).
Proof.
  split; [reflexivity|]. split; [|split].
  - apply (with_strong_run _ (Some v)). intros p _. simpl.
    unfold operator_BaseT, field_value. apply load_run, lookup_insert_eq.
  - apply (with_strong_run _ (Some v)). intros p _. simpl.
    unfold as_base_const, field_value. apply load_run, lookup_insert_eq.
  - intros v'.
    unfold with_strong, bind at 1 2, alloc.
    set (p := fresh (dom m)).
    assert (Hp : m !! p = None) by apply fresh_unused.
    unfold bind at 1 2 3, as_base, ret at 1, field_value.
    rewrite (assign_run _ _ (value (StrongType_ctor (enumV := enumV) v)) v')
      by apply lookup_insert_eq.
    unfold as_base_const, field_value.
    rewrite (load_run _ _ v') by apply lookup_insert_eq.
    unfold bind, free, ret. simpl. now rewrite scope_exit_written.
Qed.

(** C5 (scalar scaling).  For a strong value [a] holding [va] and a
    scalar [k] of the representation type, [a * k] and [k * a] hold the
    primitive's [va * k], and [a / k] holds the primitive's [va / k];
    no declared overload of [/] accepts a left operand of the
    representation type (or of any other arithmetic type) with a strong
    value on the right. *)
Theorem scalar_scaling m a va k :
  m !! a = Some va ->
  expr_mul_base (enumV := enumV) a k m
    = option_map (fun r => (mkStrongType r, m)) (prim_mul va k)
  /\ expr_base_mul (enumV := enumV) k a m
    = option_map (fun r => (mkStrongType r, m)) (prim_mul va k)
  /\ expr_div_base (enumV := enumV) a k m
    = option_map (fun r => (mkStrongType r, m)) (prim_div va k)
  /\ forall (t : Sema.operand_type) (c1 c2 : Sema.value_category),
      t <> Sema.Strong ->
      Sema.resolve (Sema.arith Div)
        {| Sema.type_of := t; Sema.category_of := c1 |}
        {| Sema.type_of := Sema.Strong; Sema.category_of := c2 |} = [].
Proof.
  intros Ha. split; [|split; [|split]].
  - now apply expr_mul_base_run.
  - now apply expr_base_mul_run.
  - now apply expr_div_base_run.
  - intros t c1 c2 Ht. destruct t, c1, c2; try reflexivity; congruence.
Qed.

(** C6 (increment and decrement).  On a strong value holding [va], the
    prefix forms store the primitive's [++va] (resp. [--va]) and return
    a reference to the object, which now holds the new value; the
    postfix forms store the same new value and return a copy holding
    [va], the value before. *)
Theorem increment_decrement m a va :
  m !! a = Some va ->
  operator_pre_inc a m
    = option_map (fun r => (a, <[a := r]> m)) (prim_incr va)
  /\ operator_post_inc (enumV := enumV) a m
    = option_map (fun r => (mkStrongType va, <[a := r]> m)) (prim_incr va)
  /\ operator_pre_dec a m
    = option_map (fun r => (a, <[a := r]> m)) (prim_decr va)
  /\ operator_post_dec (enumV := enumV) a m
    = option_map (fun r => (mkStrongType va, <[a := r]> m)) (prim_decr va).
Proof.
  intros Ha. split; [|split; [|split]].
  - now apply operator_pre_inc_run.
  - now apply operator_post_inc_run.
  - now apply operator_pre_dec_run.
  - now apply operator_post_dec_run.
Qed.

(** C7 (literal against variable).  For each of the six comparison
    operators, a strong value (named or temporary) against a temporary
    of the representation type selects exactly the mixed overload, in
    either operand order, and the call returns the primitive's
    comparison of the stored value with the temporary, leaving the store
    as it was; against a named variable of the representation type no
    overload is viable in either order, so the expression does not
    compile. *)
Theorem literal_comparison (op : cmp_op) (c : Sema.value_category) m a va k :
  m !! a = Some va ->
  let strong := {| Sema.type_of := Sema.Strong; Sema.category_of := c |} in
  (Sema.resolve (Sema.cmp op) strong (Sema.temporary Sema.Base) = [Sema.strong_base]
   /\ with_base k (fun t => call_cmp op Sema.strong_base a t) m
      = Some (prim_cmp op va k, m))
  /\ (Sema.resolve (Sema.cmp op) (Sema.temporary Sema.Base) strong = [Sema.base_strong]
      /\ with_base k (fun t => call_cmp op Sema.base_strong t a) m
         = Some (prim_cmp op k va, m))
  /\ Sema.resolve (Sema.cmp op) strong (Sema.named Sema.Base) = []
  /\ Sema.resolve (Sema.cmp op) (Sema.named Sema.Base) strong = [].
Proof.
  intros Ha strong. subst strong.
  split; [split | split; [split | split]].
  - now destruct op, c.
  - now apply expr_cmp_base_run.
  - now destruct op, c.
  - now apply expr_base_cmp_run.
  - now destruct op, c.
  - now destruct op, c.
Qed.
End Contract.

Section ContractOrdering.
Context {enumT : Type} {enumV : enumT} {BaseT : Type}.
Context {arith : Arithmetic BaseT} {lawful : LawfulCompare BaseT}.
Implicit Types (m : gmap loc BaseT) (a b x : loc) (va vb k v : BaseT).

(** Ordering on values the primitive orders.  For strong values [a] and
    [b] of one tag and representation type, [a < b] is the primitive's
    [<] and [a == b] the primitive's [==] on the stored values, always.
    Whenever the primitive orders the two stored values (always for an
    integer type; for a floating-point type unless one is a NaN), each of
    the six operators, derived from [==] and [<] alone, returns what the
    primitive's operator returns, and [<=] is total and antisymmetric
    with respect to [==]. *)
Theorem ordering_consistency m a b va vb :
  m !! a = Some va -> m !! b = Some vb ->
  operator_lt a b m = Some (prim_lt va vb, m)
  /\ operator_eq a b m = Some (prim_eq va vb, m)
  /\ (prim_compare va vb <> None ->
      (forall op : cmp_op,
          operator_cmp op a b m = Some (derived_cmp op va vb, m)
          /\ operator_cmp op a b m = Some (prim_cmp op va vb, m))
      /\ (operator_le a b m = Some (true, m) \/ operator_le b a m = Some (true, m))
      /\ (operator_le a b m = Some (true, m) ->
          operator_le b a m = Some (true, m) ->
          operator_eq a b m = Some (true, m))).
Proof.
  intros Ha Hb.
  split; [exact (operator_cmp_run CmpLt m a b va vb Ha Hb)|].
  split; [exact (operator_cmp_run CmpEq m a b va vb Ha Hb)|].
  intros Hord.
  assert (Hord' : prim_compare vb va <> None).
  { rewrite (prim_compare_swap va vb). now destruct (prim_compare va vb). }
  pose proof (operator_cmp_run CmpLe m a b va vb Ha Hb) as Hab.
  pose proof (operator_cmp_run CmpLe m b a vb va Hb Ha) as Hba.
  pose proof (operator_cmp_run CmpEq m a b va vb Ha Hb) as Heq.
  simpl operator_cmp in Hab, Hba, Heq.
  rewrite derived_cmp_ordered in Hab, Hba by assumption.
  simpl in Hab, Hba, Heq.
  split; [|split].
  - intros op. rewrite (operator_cmp_run op m a b va vb Ha Hb).
    split; [reflexivity|]. now rewrite derived_cmp_ordered.
  - rewrite Hab, Hba.
    destruct (prim_le_total va vb Hord) as [-> | ->]; auto.
  - rewrite Hab, Hba, Heq. intros Hle Hge.
    injection Hle as Hle. injection Hge as Hge.
    now rewrite (prim_le_antisym va vb Hle Hge).
Qed.
End ContractOrdering.

Section ContractEffects.
Context {enumT : Type} {enumV : enumT} {BaseT : Type}.
Context {arith : Arithmetic BaseT} {io : Streamable BaseT}.
Implicit Types (m : gmap loc BaseT) (a b x : loc) (va vb k v : BaseT).


(** C9 (stream fidelity).  Writing a strong value holding [va] returns
    the stream that the library's insertion of the scalar [va] returns,
    which is also what writing a variable of the representation type
    holding [va] returns: the wrapper adds no text of its own.  Reading
    into a strong value consumes the stream and stores the value exactly
    as the library's extraction into a variable of the representation
    type with the same prior value does. *)
Theorem stream_fidelity (os : ostream) (ins : istream) m a va (m' : gmap loc BaseT) x :
  m !! a = Some va -> m' !! x = Some va ->
  operator_insert os a m = Some (prim_insert os va, m)
  /\ result_of (operator_insert os a) m = result_of (base_insert os x) m'
  /\ operator_extract ins a m
     = Some (fst (prim_extract ins va), <[a := snd (prim_extract ins va)]> m)
  /\ base_extract ins x m'
     = Some (fst (prim_extract ins va), <[x := snd (prim_extract ins va)]> m')
  /\ result_of (operator_extract ins a) m = result_of (base_extract ins x) m'.
Proof.
  intros Ha Hx. unfold result_of, operator_insert, operator_extract, field_value.
  rewrite (base_insert_run os m a va Ha), (base_insert_run os m' x va Hx),
    (base_extract_run ins m a va Ha), (base_extract_run ins m' x va Hx).
  repeat split.
Qed.
End ContractEffects.

(** ** The contract at concrete instances *)

(** The primitive semantics carried by the wrapper: one unit is 1,
    [unsigned] wraps, [int] overflow and integer division by zero are
    undefined, [double] division by zero gives an infinity or a NaN. *)
Lemma int_incr_one (x r : int) :
  prim_incr (Arithmetic := int_arithmetic) x = Some r -> r = x + 1.
Proof.
  simpl. unfold int_result.
  destruct ((INT_MIN <=? x + 1) && (x + 1 <=? INT_MAX)); congruence.
Qed.

Lemma int_decr_one (x r : int) :
  prim_decr (Arithmetic := int_arithmetic) x = Some r -> r = x - 1.
Proof.
  simpl. unfold int_result.
  destruct ((INT_MIN <=? x - 1) && (x - 1 <=? INT_MAX)); congruence.
Qed.

Lemma unsigned_incr_one (x : unsigned) :
  0 <= x < UINT_MODULUS - 1 ->
  prim_incr (Arithmetic := unsigned_arithmetic) x = Some (x + 1).
Proof.
  intros Hx. simpl. unfold wrap. f_equal. apply Z.mod_small. lia.
Qed.

Example unsigned_add_wraps :
  expr_arith (enumV := Meters) (arith := unsigned_arithmetic) Add 1 2
    (two_objects 4294967295 1)
  = Some (mkStrongType 0, two_objects 4294967295 1).
Proof.
  now rewrite (expr_arith_run (arith := unsigned_arithmetic) Add _ 1 2 4294967295 1).
Qed.

Example int_add_overflow_undefined :
  expr_arith (enumV := Meters) (arith := int_arithmetic) Add 1 2
    (two_objects 2147483647 1) = None.
Proof.
  now rewrite (expr_arith_run (arith := int_arithmetic) Add _ 1 2 2147483647 1).
Qed.

Example int_div_by_zero_undefined :
  operator_assign (arith := int_arithmetic) Div 1 2 (two_objects 7 0) = None.
Proof.
  now rewrite (operator_assign_run (arith := int_arithmetic) Div _ 1 2 7 0).
Qed.

Example int_div_truncates :
  expr_arith (enumV := Meters) (arith := int_arithmetic) Div 1 2 (two_objects (-7) 2)
  = Some (mkStrongType (-3), two_objects (-7) 2).
Proof.
  now rewrite (expr_arith_run (arith := int_arithmetic) Div _ 1 2 (-7) 2).
Qed.

Example double_div_by_zero_infinite :
  expr_arith (enumV := Meters) (arith := double_arithmetic) Div 1 2
    (two_objects dbl_one (S754_zero false))
  = Some (mkStrongType dbl_inf, two_objects dbl_one (S754_zero false)).
Proof.
  now rewrite (expr_arith_run (arith := double_arithmetic) Div _ 1 2
                 dbl_one (S754_zero false)).
Qed.

Example double_halving_exact :
  expr_div_base (enumV := Seconds) (arith := double_arithmetic) 1
    (SFadd dbl_prec dbl_emax dbl_one dbl_one) (one_object dbl_one)
  = Some (mkStrongType dbl_half, one_object dbl_one).
Proof.
  now rewrite (expr_div_base_run (arith := double_arithmetic) _ 1 dbl_one).
Qed.

Lemma arithmetic_homomorphism_witness :
  let m : gmap loc unsigned := two_objects 6 7 in
  m !! 1%positive = Some 6 /\ m !! 2%positive = Some 7
  /\ operator_assign (arith := unsigned_arithmetic) Mul 1 2 m
     = Some (1%positive, <[1%positive := 42]> m)
  /\ expr_arith (enumV := Meters) (arith := unsigned_arithmetic) Mul 1 2 m
     = Some (mkStrongType 42, m).
Proof.
  intros m.
  assert (H1 : m !! 1%positive = Some 6) by reflexivity.
  assert (H2 : m !! 2%positive = Some 7) by reflexivity.
  destruct (arithmetic_homomorphism (enumV := Meters) (arith := unsigned_arithmetic)
              Mul m 1 2 6 7 H1 H2) as (Ha & He & _).
  split; [exact H1|]. split; [exact H2|]. split; [exact Ha | exact He].
Defined.

Lemma scalar_scaling_witness :
  let m : gmap loc double := one_object dbl_one in
  m !! 1%positive = Some dbl_one
  /\ expr_mul_base (enumV := Meters) (arith := double_arithmetic) 1 dbl_half m
     = Some (mkStrongType dbl_half, m)
  /\ expr_base_mul (enumV := Meters) (arith := double_arithmetic) dbl_half 1 m
     = Some (mkStrongType dbl_half, m)
  /\ expr_div_base (enumV := Meters) (arith := double_arithmetic) 1 dbl_half m
     = Some (mkStrongType (SFadd dbl_prec dbl_emax dbl_one dbl_one), m).
Proof.
  intros m.
  assert (H1 : m !! 1%positive = Some dbl_one) by reflexivity.
  destruct (scalar_scaling (enumV := Meters) (arith := double_arithmetic)
              m 1 dbl_one dbl_half H1) as (Hm & Hm' & Hd & _).
  split; [exact H1|]. split; [exact Hm|]. split; [exact Hm' | exact Hd].
Defined.

Lemma increment_decrement_witness :
  let m : gmap loc unsigned := one_object 0 in
  m !! 1%positive = Some 0
  /\ operator_pre_inc (arith := unsigned_arithmetic) 1 m
     = Some (1%positive, <[1%positive := 1]> m)
  /\ operator_post_inc (enumV := Meters) (arith := unsigned_arithmetic) 1 m
     = Some (mkStrongType 0, <[1%positive := 1]> m)
  /\ operator_pre_dec (arith := unsigned_arithmetic) 1 m
     = Some (1%positive, <[1%positive := 4294967295]> m)
  /\ operator_post_dec (enumV := Meters) (arith := unsigned_arithmetic) 1 m
     = Some (mkStrongType 0, <[1%positive := 4294967295]> m).
Proof.
  intros m.
  assert (H1 : m !! 1%positive = Some 0) by reflexivity.
  destruct (increment_decrement (enumV := Meters) (arith := unsigned_arithmetic)
              m 1 0 H1) as (Hpre & Hpost & Hpre' & Hpost').
  split; [exact H1|]. split; [exact Hpre|]. split; [exact Hpost|].
  split; [exact Hpre' | exact Hpost'].
Defined.

Lemma literal_comparison_witness :
  let m : gmap loc int := one_object 5 in
  m !! 1%positive = Some 5
  /\ Sema.resolve (Sema.cmp CmpEq) (Sema.named Sema.Strong) (Sema.temporary Sema.Base)
     = [Sema.strong_base]
  /\ expr_cmp_base (arith := int_arithmetic) CmpEq 1 5 m = Some (true, m)
  /\ Sema.resolve (Sema.cmp CmpEq) (Sema.named Sema.Strong) (Sema.named Sema.Base) = [].
Proof.
  intros m.
  assert (H1 : m !! 1%positive = Some 5) by reflexivity.
  destruct (literal_comparison (arith := int_arithmetic) CmpEq Sema.lvalue m 1 5 5 H1)
    as ((Hr & Hv) & _ & Hn & _).
  split; [exact H1|]. split; [exact Hr|]. split; [exact Hv | exact Hn].
Defined.

Lemma ordering_consistency_witness :
  let m : gmap loc double := two_objects dbl_half dbl_one in
  @LawfulCompare double double_arithmetic
  /\ m !! 1%positive = Some dbl_half /\ m !! 2%positive = Some dbl_one
  /\ prim_compare (Arithmetic := double_arithmetic) dbl_half dbl_one <> None
  /\ operator_lt (arith := double_arithmetic) 1 2 m = Some (true, m)
  /\ forall op : cmp_op,
      operator_cmp (arith := double_arithmetic) op 1 2 m
      = Some (prim_cmp (arith := double_arithmetic) op dbl_half dbl_one, m).
Proof.
  intros m.
  assert (H1 : m !! 1%positive = Some dbl_half) by reflexivity.
  assert (H2 : m !! 2%positive = Some dbl_one) by reflexivity.
  assert (Hord : prim_compare (Arithmetic := double_arithmetic) dbl_half dbl_one <> None)
    by discriminate.
  destruct (ordering_consistency (arith := double_arithmetic) (lawful := double_lawful)
              m 1 2 dbl_half dbl_one H1 H2) as (Hlt & _ & Hall).
  destruct (Hall Hord) as (Hsix & _).
  split; [exact double_lawful|]. split; [exact H1|]. split; [exact H2|].
  split; [exact Hord|]. split; [exact Hlt|].
  intros op. exact (proj2 (Hsix op)).
Defined.

(** On a floating-point NaN the six operators do not all return what the
    primitive's operators return: with [a] holding a NaN and [b] holding
    [1.0], [a <= b] is [!(b < a)], which is true, while the primitive's
    [NaN <= 1.0] is false. *)
Lemma ordering_nan_counterexample :
  let m : gmap loc double := two_objects dbl_nan dbl_one in
  ~ (forall op : cmp_op,
        operator_cmp (arith := double_arithmetic) op 1 2 m
        = Some (prim_cmp (arith := double_arithmetic) op dbl_nan dbl_one, m)).
Proof.
  intros m Hall. specialize (Hall CmpLe).
  rewrite (operator_cmp_run (arith := double_arithmetic) CmpLe m 1 2 dbl_nan dbl_one)
    in Hall by reflexivity.
  discriminate Hall.
Qed.



Lemma stream_fidelity_witness :
  let m : gmap loc unsigned := one_object 42 in
  let m' : gmap loc unsigned := two_objects 0 42 in
  let os := {| written := "x=" |} in
  let ins := {| pending := " 17 rest"; failbit := false |} in
  m !! 1%positive = Some 42 /\ m' !! 2%positive = Some 42
  /\ operator_insert (io := unsigned_streamable) os 1 m = Some ({| written := "x=42" |}, m)
  /\ result_of (base_insert (io := unsigned_streamable) os 2) m'
     = Some {| written := "x=42" |}
  /\ operator_extract (io := unsigned_streamable) ins 1 m
     = Some ({| pending := " rest"; failbit := false |}, <[1%positive := 17]> m).
Proof.
  intros m m' os ins.
  assert (H1 : m !! 1%positive = Some 42) by reflexivity.
  assert (H2 : m' !! 2%positive = Some 42) by reflexivity.
  destruct (stream_fidelity (io := unsigned_streamable) os ins m 1 42 m' 2 H1 H2)
    as (Hins & Hsame & Hext & _).
  split; [exact H1|]. split; [exact H2|]. split; [exact Hins|].
  split; [rewrite <- Hsame; unfold result_of; now rewrite Hins | exact Hext].
Defined.

(** C10 at a NaN: with [a] holding a NaN, the mixed comparisons [a <= 1.0],
    [a >= 1.0], [1.0 <= a] and [1.0 >= a] return false, as the primitive
    does, while the same comparisons with the scalar wrapped first,
    [a <= StrongT(1.0)] and so on, return true. *)
Theorem mixed_and_wrapped_differ_on_nan :
  let m : gmap loc double := one_object dbl_nan in
  (expr_cmp_base (arith := double_arithmetic) CmpLe 1 dbl_one m = Some (false, m)
   /\ expr_cmp_wrapped (enumV := Meters) (arith := double_arithmetic) CmpLe 1 dbl_one m
      = Some (true, m))
  /\ (expr_cmp_base (arith := double_arithmetic) CmpGe 1 dbl_one m = Some (false, m)
      /\ expr_cmp_wrapped (enumV := Meters) (arith := double_arithmetic) CmpGe 1 dbl_one m
         = Some (true, m))
  /\ (expr_base_cmp (arith := double_arithmetic) CmpLe dbl_one 1 m = Some (false, m)
      /\ expr_wrapped_cmp (enumV := Meters) (arith := double_arithmetic) CmpLe dbl_one 1 m
         = Some (true, m))
  /\ (expr_base_cmp (arith := double_arithmetic) CmpGe dbl_one 1 m = Some (false, m)
      /\ expr_wrapped_cmp (enumV := Meters) (arith := double_arithmetic) CmpGe dbl_one 1 m
         = Some (true, m)).
Proof.
  intros m.
  assert (H1 : m !! 1%positive = Some dbl_nan) by reflexivity.
  rewrite !(expr_cmp_base_run (arith := double_arithmetic) _ m 1 dbl_nan dbl_one H1),
    !(expr_base_cmp_run (arith := double_arithmetic) _ m 1 dbl_nan dbl_one H1),
    !(expr_cmp_wrapped_run (arith := double_arithmetic) _ m 1 dbl_nan dbl_one H1),
    !(expr_wrapped_cmp_run (arith := double_arithmetic) _ m 1 dbl_nan dbl_one H1).
  repeat split.
Qed.

(** Four of the six strong comparisons, [==], [!=], [<] and [>], return
    what the primitive's operator returns on the stored values, for every
    pair of values, unordered ones included. *)
Lemma four_comparisons_match_primitive {BaseT : Type}
    {arith : Arithmetic BaseT} {lawful : LawfulCompare BaseT}
    (m : gmap loc BaseT) (a b : loc) (va vb : BaseT) :
  m !! a = Some va -> m !! b = Some vb ->
  operator_eq a b m = Some (prim_eq va vb, m)
  /\ operator_ne a b m = Some (prim_ne va vb, m)
  /\ operator_lt a b m = Some (prim_lt va vb, m)
  /\ operator_gt a b m = Some (prim_gt va vb, m).
Proof.
  intros Ha Hb.
  pose proof (operator_cmp_run CmpEq m a b va vb Ha Hb) as Heq.
  pose proof (operator_cmp_run CmpNe m a b va vb Ha Hb) as Hne.
  pose proof (operator_cmp_run CmpLt m a b va vb Ha Hb) as Hlt.
  pose proof (operator_cmp_run CmpGt m a b va vb Ha Hb) as Hgt.
  simpl in Heq, Hne, Hlt, Hgt.
  split; [exact Heq|]. split; [exact Hne|]. split; [exact Hlt|].
  rewrite Hgt. unfold prim_lt, prim_gt. rewrite (prim_compare_swap va vb).
  now destruct (prim_compare va vb) as [[]|].
Qed.

(** C3 (ordering consistency) at a NaN.  With [a] holding a NaN and [b]
    holding [1.0]: [a == b], [a != b], [a < b] and [a > b] return what the
    primitive returns on the stored values, but [a <= b], [a >= b],
    [b <= a] and [b >= a], each the negation of a [<], return true where
    the primitive's [<=] and [>=] are false; the mixed overload
    [a <= 1.0] returns the primitive's false.  So the six operators do not
    match the primitive's ordering there. *)
Theorem derived_ordering_differs_on_nan :
  let m : gmap loc double := two_objects dbl_nan dbl_one in
  (operator_eq (arith := double_arithmetic) 1 2 m
     = Some (prim_eq (arith := double_arithmetic) dbl_nan dbl_one, m)
   /\ operator_ne (arith := double_arithmetic) 1 2 m
     = Some (prim_ne (arith := double_arithmetic) dbl_nan dbl_one, m)
   /\ operator_lt (arith := double_arithmetic) 1 2 m
     = Some (prim_lt (arith := double_arithmetic) dbl_nan dbl_one, m)
   /\ operator_gt (arith := double_arithmetic) 1 2 m
     = Some (prim_gt (arith := double_arithmetic) dbl_nan dbl_one, m))
  /\ (operator_le (arith := double_arithmetic) 1 2 m = Some (true, m)
      /\ prim_le (arith := double_arithmetic) dbl_nan dbl_one = false)
  /\ (operator_ge (arith := double_arithmetic) 1 2 m = Some (true, m)
      /\ prim_ge (arith := double_arithmetic) dbl_nan dbl_one = false)
  /\ (operator_le (arith := double_arithmetic) 2 1 m = Some (true, m)
      /\ prim_le (arith := double_arithmetic) dbl_one dbl_nan = false)
  /\ (operator_ge (arith := double_arithmetic) 2 1 m = Some (true, m)
      /\ prim_ge (arith := double_arithmetic) dbl_one dbl_nan = false)
  /\ expr_cmp_base (arith := double_arithmetic) CmpLe 1 dbl_one m = Some (false, m).
Proof.
  intros m.
  assert (H1 : m !! 1%positive = Some dbl_nan) by reflexivity.
  assert (H2 : m !! 2%positive = Some dbl_one) by reflexivity.
  split.
  { exact (four_comparisons_match_primitive (arith := double_arithmetic)
             (lawful := double_lawful) m 1 2 dbl_nan dbl_one H1 H2). }
  pose proof (operator_cmp_run (arith := double_arithmetic) CmpLe m 1 2 _ _ H1 H2) as Hle.
  pose proof (operator_cmp_run (arith := double_arithmetic) CmpGe m 1 2 _ _ H1 H2) as Hge.
  pose proof (operator_cmp_run (arith := double_arithmetic) CmpLe m 2 1 _ _ H2 H1) as Hle'.
  pose proof (operator_cmp_run (arith := double_arithmetic) CmpGe m 2 1 _ _ H2 H1) as Hge'.
  simpl operator_cmp in Hle, Hge, Hle', Hge'.
  rewrite Hle, Hge, Hle', Hge'.
  rewrite (expr_cmp_base_run (arith := double_arithmetic) CmpLe m 1 dbl_nan dbl_one H1).
  repeat split.
Qed.

(** Where the primitive orders the two values, the mixed comparisons and
    the comparisons with the scalar wrapped first agree. *)
Lemma mixed_and_wrapped_agree_when_ordered {BaseT : Type}
    {arith : Arithmetic BaseT} {lawful : LawfulCompare BaseT}
    (op : cmp_op) (m : gmap loc BaseT) (a : loc) (va k : BaseT) :
  m !! a = Some va -> prim_compare va k <> None ->
  expr_cmp_base op a k m = expr_cmp_wrapped (enumV := Meters) op a k m
  /\ expr_base_cmp op k a m = expr_wrapped_cmp (enumV := Meters) op k a m.
Proof.
  intros Ha Hord.
  assert (Hord' : prim_compare k va <> None).
  { rewrite (prim_compare_swap va k). now destruct (prim_compare va k). }
  rewrite (expr_cmp_base_run op m a va k Ha), (expr_base_cmp_run op m a va k Ha),
    (expr_cmp_wrapped_run op m a va k Ha), (expr_wrapped_cmp_run op m a va k Ha).
  now rewrite !derived_cmp_ordered.
Qed.

(** ** The template constraints *)

Lemma instantiate_accepts_iff (enumT BaseT : Sema.type_category) :
  Sema.accepted enumT BaseT = Sema.is_arithmetic BaseT && Sema.is_enum enumT.
Proof. now destruct enumT, BaseT. Qed.

Lemma non_arithmetic_rejected (enumT BaseT : Sema.type_category) :
  Sema.is_arithmetic BaseT = false ->
  In "StrongType only available for arithmetic types"%string
     (Sema.instantiate enumT BaseT).
Proof.
  intros Hb. unfold Sema.instantiate. rewrite Hb. simpl. now left.
Qed.

Lemma non_enum_rejected (enumT BaseT : Sema.type_category) :
  Sema.is_enum enumT = false ->
  In "StrongType must be instantiated with scoped enum (enum class)"%string
     (Sema.instantiate enumT BaseT).
Proof.
  intros Hb. unfold Sema.instantiate. rewrite Hb.
  apply in_or_app. right. now left.
Qed.

(** C2 at a plain enumeration: [StrongType<Plain, A, double>] with
    [enum Plain { A }] passes both assertions, emits no diagnostic and is
    accepted, although the second assertion's message asks for a scoped
    enumeration. *)
Theorem unscoped_enum_accepted :
  Sema.is_enum Sema.unscoped_enum = true
  /\ Sema.instantiate Sema.unscoped_enum Sema.floating_point = []
  /\ Sema.accepted Sema.unscoped_enum Sema.floating_point = true.
Proof. repeat split. Qed.

(** * Further properties of the header *)

Section Composition.
Context {enumT : Type} {enumV : enumT} {BaseT : Type}.
Context {arith : Arithmetic BaseT}.
Local Abbreviation StrongT := (StrongType enumT enumV BaseT).
Implicit Types (m : gmap loc BaseT) (a b c x : loc) (va vb vc k v : BaseT).
Local Open Scope cpp_scope.

(** X1.  The in-place scalar forms [a *= k] and [a /= k], with [k] read
    through a reference [x] to a scalar: the object [a] receives the
    primitive's result and the call returns a reference to [a].  The
    reference may designate [a]'s own member (as [as_base] returns it):
    [a *= a.as_base()] leaves the primitive's [va * va] in [a]. *)
Theorem scalar_compound_assignment m a x va k :
  m !! a = Some va -> m !! x = Some k ->
  operator_mul_assign_base a x m
    = option_map (fun r => (a, <[a := r]> m)) (prim_mul va k)
  /\ operator_div_assign_base a x m
    = option_map (fun r => (a, <[a := r]> m)) (prim_div va k)
  /\ (r <- as_base a;; operator_mul_assign_base a r) m
    = option_map (fun r => (a, <[a := r]> m)) (prim_mul va va).
Proof.
  intros Ha Hx.
  assert (Hgen : forall f y vy, m !! y = Some vy ->
            (compound f a y;; ret a) m
            = option_map (fun r => (a, <[a := r]> m)) (f va vy)).
  { intros f y vy Hy. unfold bind. rewrite (compound_run f m a y va vy Ha Hy).
    now destruct (f va vy). }
  split; [exact (Hgen prim_mul x k Hx)|].
  split; [exact (Hgen prim_div x k Hx)|].
  unfold bind at 1, as_base, ret at 1, field_value.
  exact (Hgen prim_mul a va Ha).
Qed.

(** X2.  A compound assignment returns its left operand itself, so a
    second compound assignment applied to the result, [(a op1= b) op2= c],
    works on [a] again: [a] ends with [op2] applied to the result of
    [op1], where [c] is read after the first assignment (so it is the new
    value when [c] is [a]). *)
Theorem compound_assignment_chain (op1 op2 : arith_op) m a b c va vb vc :
  m !! a = Some va -> m !! b = Some vb -> m !! c = Some vc ->
  (r <- operator_assign op1 a b;; operator_assign op2 r c) m
  = match prim_arith op1 va vb with
    | Some r1 =>
        option_map (fun r2 => (a, <[a := r2]> m))
          (prim_arith op2 r1 (if decide (c = a) then r1 else vc))
    | None => None
    end.
Proof.
  intros Ha Hb Hc. unfold bind.
  rewrite (operator_assign_run op1 m a b va vb Ha Hb).
  destruct (prim_arith op1 va vb) as [r1|]; simpl; [|reflexivity].
  assert (Hc' : <[a := r1]> m !! c = Some (if decide (c = a) then r1 else vc)).
  { destruct (decide (c = a)) as [-> | Hne].
    - apply lookup_insert_eq.
    - now rewrite lookup_insert_ne. }
  rewrite (operator_assign_run op2 _ a c r1 _ (lookup_insert_eq _ _ _) Hc').
  destruct (prim_arith op2 r1 _); simpl; [|reflexivity].
  now rewrite insert_insert_eq.
Qed.

(** X3.  A binary operator takes its left operand by value, so the result
    of one operator feeds the next: [(a op1 b) op2 c] holds the primitive's
    [(va op1 vb) op2 vc], is undefined when either primitive step is, and
    leaves [a], [b], [c] and every other object as they were. *)
Theorem nested_expression (op1 op2 : arith_op) m a b c va vb vc :
  m !! a = Some va -> m !! b = Some vb -> m !! c = Some vc ->
  (t <- expr_arith (enumV := enumV) op1 a b;; operator_arith op2 t c) m
  = match prim_arith op1 va vb with
    | Some r1 =>
        option_map (fun r2 => (mkStrongType r2, m)) (prim_arith op2 r1 vc)
    | None => None
    end.
Proof.
  intros Ha Hb Hc. unfold bind.
  rewrite (expr_arith_run op1 m a b va vb Ha Hb).
  destruct (prim_arith op1 va vb) as [r1|]; simpl; [|reflexivity].
  now rewrite (operator_arith_run op2 _ m c vc Hc).
Qed.

(** X4.  [a = a op b] and [a op= b] are the same statement: assigning the
    result of the binary operator back to [a] gives the store, the
    returned reference and the undefined cases of the compound
    assignment. *)
Theorem assign_binary_is_compound (op : arith_op) m a b va vb :
  m !! a = Some va -> m !! b = Some vb ->
  (r <- expr_arith (enumV := enumV) op a b;; operator_copy_assign a r) m
  = operator_assign op a b m.
Proof.
  intros Ha Hb. unfold bind.
  rewrite (expr_arith_run op m a b va vb Ha Hb),
    (operator_assign_run op m a b va vb Ha Hb).
  destruct (prim_arith op va vb) as [r|]; simpl; [|reflexivity].
  unfold operator_copy_assign, bind, field_value. cbn [value].
  now rewrite (assign_run m a va r Ha).
Qed.
End Composition.

Section ComparisonLaws.
Context {enumT : Type} {enumV : enumT} {BaseT : Type}.
Context {arith : Arithmetic BaseT} {lawful : LawfulCompare BaseT}.
Implicit Types (m : gmap loc BaseT) (a b x : loc) (va vb k v : BaseT).

Lemma prim_cmp_mirror (op : cmp_op) (x y : BaseT) :
  prim_cmp op x y = prim_cmp (mirror op) y x.
Proof.
  destruct op; simpl; unfold prim_ne, prim_eq, prim_lt, prim_gt, prim_le, prim_ge;
    rewrite (prim_compare_swap y x); now destruct (prim_compare y x) as [[]|].
Qed.

(** X5.  The two operand orders of a comparison with a temporary scalar
    mirror each other for every value, unordered ones included: [k op a]
    returns what [a op' k] returns, where [op'] is [op] with its operands
    exchanged ([<] for [>], [<=] for [>=], [==] and [!=] themselves). *)
Theorem mixed_comparison_mirror (op : cmp_op) m a va k :
  m !! a = Some va ->
  expr_base_cmp op k a m = expr_cmp_base (mirror op) a k m.
Proof.
  intros Ha.
  rewrite (expr_base_cmp_run op m a va k Ha),
    (expr_cmp_base_run (mirror op) m a va k Ha).
  now rewrite (prim_cmp_mirror op k va).
Qed.

(** X6.  Of [a < b], [a == b] and [a > b] no two hold together, whatever
    the values; when the primitive orders the two values exactly one of
    them holds.  [a == b] and [b == a] always agree. *)
Theorem comparison_exclusive m a b va vb :
  m !! a = Some va -> m !! b = Some vb ->
  exists lt eq gt : bool,
    operator_lt a b m = Some (lt, m)
    /\ operator_eq a b m = Some (eq, m)
    /\ operator_gt a b m = Some (gt, m)
    /\ operator_eq b a m = Some (eq, m)
    /\ lt && eq = false /\ lt && gt = false /\ eq && gt = false
    /\ (prim_compare va vb <> None -> lt || eq || gt = true).
Proof.
  intros Ha Hb.
  exists (prim_lt va vb), (prim_eq va vb), (prim_lt vb va).
  split; [exact (operator_cmp_run CmpLt m a b va vb Ha Hb)|].
  split; [exact (operator_cmp_run CmpEq m a b va vb Ha Hb)|].
  split; [exact (operator_cmp_run CmpGt m a b va vb Ha Hb)|].
  split.
  { pose proof (operator_cmp_run CmpEq m b a vb va Hb Ha) as Hba.
    simpl in Hba. rewrite Hba.
    pose proof (prim_cmp_mirror CmpEq vb va) as Hsym. simpl in Hsym.
    now rewrite Hsym. }
  unfold prim_lt, prim_eq. rewrite (prim_compare_swap va vb).
  destruct (prim_compare va vb) as [[]|]; simpl; repeat split; congruence.
Qed.

(** X7.  Whenever the primitive orders the stored value and the scalar
    (always for an integer type), comparing with the temporary scalar and
    comparing with the scalar wrapped in a strong value first return the
    same, for each of the six operators and in both operand orders. *)
Theorem mixed_matches_wrapped_when_ordered (op : cmp_op) m a va k :
  m !! a = Some va -> prim_compare va k <> None ->
  expr_cmp_base op a k m = expr_cmp_wrapped (enumV := enumV) op a k m
  /\ expr_base_cmp op k a m = expr_wrapped_cmp (enumV := enumV) op k a m.
Proof.
  intros Ha Hord.
  assert (Hord' : prim_compare k va <> None).
  { rewrite (prim_compare_swap va k). now destruct (prim_compare va k). }
  rewrite (expr_cmp_base_run op m a va k Ha), (expr_base_cmp_run op m a va k Ha),
    (expr_cmp_wrapped_run op m a va k Ha), (expr_wrapped_cmp_run op m a va k Ha).
  now rewrite !derived_cmp_ordered.
Qed.
End ComparisonLaws.

(** ** Increment and decrement undo each other *)

Section Stepping.
Context {enumT : Type} {enumV : enumT}.
Local Open Scope cpp_scope.

Lemma unsigned_step_back (v : unsigned) :
  0 <= v < UINT_MODULUS -> wrap (wrap (v + 1) - 1) = v /\ wrap (wrap (v - 1) + 1) = v.
Proof.
  intros Hv. unfold wrap. split.
  - rewrite Zminus_mod_idemp_l. replace (v + 1 - 1) with v by lia.
    now apply Z.mod_small.
  - rewrite Zplus_mod_idemp_l. replace (v - 1 + 1) with v by lia.
    now apply Z.mod_small.
Qed.

(** X8.  On an [unsigned] strong value, [++a] followed by [--a], and [--a]
    followed by [++a], give back the reference to [a] and the store they
    started from, for every value: also at the largest value, where [++]
    wraps to zero, and at zero, where [--] wraps to the largest.  The
    postfix pair [a++], [a--] returns the old value and the incremented
    one and restores the store as well. *)
Theorem unsigned_increment_decrement_inverse (m : gmap loc unsigned) (a : loc) (va : unsigned) :
  m !! a = Some va -> 0 <= va < UINT_MODULUS ->
  (r <- operator_pre_inc (arith := unsigned_arithmetic) a;;
   operator_pre_dec (arith := unsigned_arithmetic) r) m = Some (a, m)
  /\ (r <- operator_pre_dec (arith := unsigned_arithmetic) a;;
      operator_pre_inc (arith := unsigned_arithmetic) r) m = Some (a, m)
  /\ (old <- operator_post_inc (enumV := enumV) (arith := unsigned_arithmetic) a;;
      new <- operator_post_dec (enumV := enumV) (arith := unsigned_arithmetic) a;;
      ret (value old, value new)) m
     = Some ((va, wrap (va + 1)), m).
Proof.
  intros Ha Hv.
  destruct (unsigned_step_back va Hv) as [Hup Hdown].
  assert (Hback : forall r, <[a := va]> (<[a := r]> m) = m).
  { intros r. rewrite insert_insert_eq. now apply insert_id. }
  unfold bind.
  rewrite (operator_pre_inc_run (arith := unsigned_arithmetic) m a va Ha),
    (operator_pre_dec_run (arith := unsigned_arithmetic) m a va Ha),
    (operator_post_inc_run (arith := unsigned_arithmetic) m a va Ha).
  simpl.
  rewrite (operator_pre_dec_run (arith := unsigned_arithmetic) _ a (wrap (va + 1)))
    by apply lookup_insert_eq.
  rewrite (operator_pre_inc_run (arith := unsigned_arithmetic) _ a (wrap (va - 1)))
    by apply lookup_insert_eq.
  rewrite (operator_post_dec_run (arith := unsigned_arithmetic) _ a (wrap (va + 1)))
    by apply lookup_insert_eq.
  simpl. rewrite Hup, Hdown, !Hback. unfold ret. auto.
Qed.

(** X9.  On an [int] strong value below the largest value, [++a] followed
    by [--a] gives back the store it started from; at the largest value
    [++a] and [a++] are undefined, and at the smallest [--a] and [a--]
    are. *)
Theorem int_increment_decrement_edges (m : gmap loc int) (a : loc) (va : int) :
  m !! a = Some va -> INT_MIN <= va <= INT_MAX ->
  (va < INT_MAX ->
     (r <- operator_pre_inc (arith := int_arithmetic) a;;
      operator_pre_dec (arith := int_arithmetic) r) m = Some (a, m))
  /\ (va = INT_MAX ->
        operator_pre_inc (arith := int_arithmetic) a m = None
        /\ operator_post_inc (enumV := enumV) (arith := int_arithmetic) a m = None)
  /\ (va = INT_MIN ->
        operator_pre_dec (arith := int_arithmetic) a m = None
        /\ operator_post_dec (enumV := enumV) (arith := int_arithmetic) a m = None).
Proof.
  intros Ha Hv.
  rewrite (operator_pre_inc_run (arith := int_arithmetic) m a va Ha),
    (operator_post_inc_run (arith := int_arithmetic) m a va Ha),
    (operator_pre_dec_run (arith := int_arithmetic) m a va Ha),
    (operator_post_dec_run (arith := int_arithmetic) m a va Ha).
  unfold bind.
  rewrite (operator_pre_inc_run (arith := int_arithmetic) m a va Ha).
  simpl. unfold int_result.
  split; [|split].
  - intros Hlt.
    replace ((INT_MIN <=? va + 1) && (va + 1 <=? INT_MAX)) with true
      by (symmetry; apply andb_true_iff; split; apply Z.leb_le; lia).
    simpl.
    rewrite (operator_pre_dec_run (arith := int_arithmetic) _ a (va + 1))
      by apply lookup_insert_eq.
    simpl. unfold int_result.
    replace (va + 1 - 1) with va by lia.
    replace ((INT_MIN <=? va) && (va <=? INT_MAX)) with true
      by (symmetry; apply andb_true_iff; split; apply Z.leb_le; lia).
    simpl. rewrite insert_insert_eq. now rewrite insert_id.
  - intros ->. now vm_compute.
  - intros ->. now vm_compute.
Qed.
End Stepping.

(** ** Which expressions compile *)

(** X10.  Overload resolution among the header's operators is never
    ambiguous: for every operator symbol and every pair of operands at
    most one declared overload is viable. *)
Theorem resolve_unambiguous (s : Sema.symbol) (a1 a2 : Sema.operand) :
  (length (Sema.resolve s a1 a2) <= 1)%nat.
Proof.
  destruct a1 as [t1 c1], a2 as [t2 c2].
  destruct s as [[]|[]], t1, c1, t2, c2; vm_compute; lia.
Qed.

(** X11.  Addition and subtraction exist between two strong values only:
    with a scalar on either side, of the representation type or of
    another arithmetic type, named or temporary, [+] and [-] have no
    viable overload. *)
Theorem addition_needs_two_strong (op : arith_op) (a1 a2 : Sema.operand) :
  op = Add \/ op = Sub ->
  Sema.resolve (Sema.arith op) a1 a2
  = match Sema.type_of a1, Sema.type_of a2 with
    | Sema.Strong, Sema.Strong => [Sema.strong_strong]
    | _, _ => []
    end.
Proof.
  destruct a1 as [t1 c1], a2 as [t2 c2].
  intros [-> | ->]; destruct t1, c1, t2, c2; reflexivity.
Qed.

(** X12.  Scaling accepts a named scalar: [a * x], [x * a] and [a / x]
    select the scalar overload whether [x] is a variable or a temporary,
    of the representation type or of another arithmetic type (the
    parameter is [const BaseT &]), unlike the comparisons. *)
Theorem scaling_accepts_named_scalar
    (t : Sema.operand_type) (c ck : Sema.value_category) :
  t <> Sema.Strong ->
  let strong := {| Sema.type_of := Sema.Strong; Sema.category_of := c |} in
  let scalar := {| Sema.type_of := t; Sema.category_of := ck |} in
  Sema.resolve (Sema.arith Mul) strong scalar = [Sema.strong_base]
  /\ Sema.resolve (Sema.arith Mul) scalar strong = [Sema.base_strong]
  /\ Sema.resolve (Sema.arith Div) strong scalar = [Sema.strong_base].
Proof.
  intros Ht. destruct t, c, ck; try congruence; now vm_compute.
Qed.

(** X13.  The rejection of named scalars in comparisons is limited to
    the representation type itself: an operand of another arithmetic type
    is converted to a temporary of the representation type, so it is
    accepted by the mixed overloads in both orders even when it is a named
    variable. *)
Theorem comparison_accepts_converted_variable
    (op : cmp_op) (c ck : Sema.value_category) :
  let strong := {| Sema.type_of := Sema.Strong; Sema.category_of := c |} in
  let other := {| Sema.type_of := Sema.OtherArithmetic; Sema.category_of := ck |} in
  Sema.resolve (Sema.cmp op) strong other = [Sema.strong_base]
  /\ Sema.resolve (Sema.cmp op) other strong = [Sema.base_strong].
Proof. destruct op, c, ck; now vm_compute. Qed.

(** ** Text written is text read back *)

Lemma digits_taken (d : Decimal.uint) :
  take_digits (NilEmpty.string_of_uint d) = (NilEmpty.string_of_uint d, EmptyString).
Proof.
  induction d as [|d IHd|d IHd|d IHd|d IHd|d IHd|d IHd|d IHd|d IHd|d IHd|d IHd];
    [reflexivity | ..];
    cbn [NilEmpty.string_of_uint take_digits];
    rewrite IHd; reflexivity.
Qed.

Lemma digits_no_space (d : Decimal.uint) :
  skip_spaces (NilEmpty.string_of_uint d) = NilEmpty.string_of_uint d.
Proof. now destruct d. Qed.

Lemma digits_field (d : Decimal.uint) :
  d <> Decimal.Nil ->
  exists (c : ascii) (rest : string),
    NilEmpty.string_of_uint d = String c rest
    /\ take_sign (String c rest) = (false, String c rest).
Proof.
  intros Hd. destruct d; [contradiction | ..]; eexists; eexists; split; reflexivity.
Qed.

(** Extraction from a field that starts with neither a sign nor the end
    of the input. *)
Lemma unsigned_extract_field (p : string) (c : ascii) (rest : string) (old : unsigned) :
  skip_spaces p = String c rest ->
  take_sign (String c rest) = (false, String c rest) ->
  unsigned_extract {| pending := p; failbit := false |} old
  = let (ds, tl) := take_digits (String c rest) in
    match NilZero.uint_of_string ds with
    | None => ({| pending := tl; failbit := true |}, 0)
    | Some d =>
        if Z.of_uint d <? UINT_MODULUS
        then ({| pending := tl; failbit := false |}, Z.of_uint d)
        else ({| pending := tl; failbit := true |}, UINT_MODULUS - 1)
    end.
Proof.
  intros Hskip Hsign. unfold unsigned_extract. cbn [failbit pending].
  rewrite Hskip, Hsign.
  destruct (take_digits (String c rest)) as [ds tl].
  destruct (NilZero.uint_of_string ds) as [d|]; [|reflexivity].
  cbv zeta. now destruct (Z.of_uint d <? UINT_MODULUS).
Qed.

Lemma unsigned_text_round_trip (v old : unsigned) :
  0 <= v < UINT_MODULUS ->
  unsigned_extract
    {| pending := written (unsigned_insert {| written := "" |} v); failbit := false |}
    old
  = ({| pending := ""; failbit := false |}, v).
Proof.
  intros Hv. unfold unsigned_insert. cbn [written].
  change (String.append "" ?s) with s.
  set (d := N.to_uint (Z.to_N v)).
  assert (Hd : d <> Decimal.Nil).
  { unfold d. destruct (Z.to_N v);
      [discriminate | apply Stdlib.Numbers.DecimalPos.Unsigned.to_uint_nonnil]. }
  assert (Hs : NilZero.string_of_uint d = NilEmpty.string_of_uint d)
    by (destruct d; [contradiction | reflexivity ..]).
  destruct (digits_field d Hd) as (c & rest & Hfield & Hsign).
  rewrite (unsigned_extract_field _ c rest old);
    [| now rewrite Hs, digits_no_space | exact Hsign].
  rewrite <- Hfield, digits_taken, <- Hs.
  rewrite (NilZero.usu d Hd).
  assert (Hn : Z.of_uint d = v).
  { unfold Z.of_uint. change (Pos.of_uint d) with (N.of_uint d).
    unfold d. rewrite Stdlib.Numbers.DecimalN.Unsigned.of_to. apply Z2N.id. lia. }
  rewrite Hn.
  replace (v <? UINT_MODULUS) with true by (symmetry; apply Z.ltb_lt; lia).
  reflexivity.
Qed.

Section TextRoundTrip.
Local Open Scope cpp_scope.

(** X14.  For an [unsigned] representation with the library's decimal
    text: writing a strong value [a] to an empty stream and reading that
    text into a strong value [b] leaves [b] holding [a]'s value, consumes
    the whole text without setting the fail bit, and changes nothing
    else. *)
Theorem unsigned_stream_round_trip (m : gmap loc unsigned) (a b : loc) (va old : unsigned) :
  m !! a = Some va -> m !! b = Some old -> 0 <= va < UINT_MODULUS ->
  (os <- operator_insert (io := unsigned_streamable) {| written := "" |} a;;
   operator_extract (io := unsigned_streamable)
     {| pending := written os; failbit := false |} b) m
  = Some ({| pending := ""; failbit := false |}, <[b := va]> m).
Proof.
  intros Ha Hb Hv. unfold bind, operator_insert, operator_extract, field_value.
  rewrite (base_insert_run (io := unsigned_streamable) _ m a va Ha).
  rewrite (base_extract_run (io := unsigned_streamable) _ m b old Hb).
  cbn [prim_insert prim_extract unsigned_streamable].
  now rewrite (unsigned_text_round_trip va old Hv).
Qed.
End TextRoundTrip.

(** ** The further properties at concrete instances *)

Lemma scalar_compound_assignment_witness :
  let m : gmap loc unsigned := two_objects 6 7 in
  m !! 1%positive = Some 6 /\ m !! 2%positive = Some 7
  /\ operator_mul_assign_base (arith := unsigned_arithmetic) 1 2 m
     = Some (1%positive, <[1%positive := 42]> m)
  /\ (bind (as_base 1) (fun r => operator_mul_assign_base (arith := unsigned_arithmetic) 1 r)) m
     = Some (1%positive, <[1%positive := 36]> m).
Proof.
  intros m.
  assert (H1 : m !! 1%positive = Some 6) by reflexivity.
  assert (H2 : m !! 2%positive = Some 7) by reflexivity.
  destruct (scalar_compound_assignment (arith := unsigned_arithmetic) m 1 2 6 7 H1 H2)
    as (Hmul & _ & Hself).
  split; [exact H1|]. split; [exact H2|]. split; [exact Hmul | exact Hself].
Defined.

Lemma compound_assignment_chain_witness :
  let m : gmap loc unsigned := two_objects 6 7 in
  m !! 1%positive = Some 6 /\ m !! 2%positive = Some 7
  /\ (bind (operator_assign (arith := unsigned_arithmetic) Add 1 2)
        (fun r => operator_assign (arith := unsigned_arithmetic) Mul r 1)) m
     = Some (1%positive, <[1%positive := 169]> m).
Proof.
  intros m.
  assert (H1 : m !! 1%positive = Some 6) by reflexivity.
  assert (H2 : m !! 2%positive = Some 7) by reflexivity.
  split; [exact H1|]. split; [exact H2|].
  exact (compound_assignment_chain (arith := unsigned_arithmetic)
           Add Mul m 1 2 1 6 7 6 H1 H2 H1).
Defined.

Lemma nested_expression_witness :
  let m : gmap loc int := two_objects 6 7 in
  m !! 1%positive = Some 6 /\ m !! 2%positive = Some 7
  /\ (bind (expr_arith (enumV := Meters) (arith := int_arithmetic) Add 1 2)
        (fun t => operator_arith (arith := int_arithmetic) Sub t 2)) m
     = Some (mkStrongType 6, m).
Proof.
  intros m.
  assert (H1 : m !! 1%positive = Some 6) by reflexivity.
  assert (H2 : m !! 2%positive = Some 7) by reflexivity.
  split; [exact H1|]. split; [exact H2|].
  exact (nested_expression (enumV := Meters) (arith := int_arithmetic)
           Add Sub m 1 2 2 6 7 7 H1 H2 H2).
Defined.

Lemma assign_binary_is_compound_witness :
  let m : gmap loc int := two_objects 6 7 in
  m !! 1%positive = Some 6 /\ m !! 2%positive = Some 7
  /\ (bind (expr_arith (enumV := Meters) (arith := int_arithmetic) Sub 1 2)
        (fun r => operator_copy_assign 1 r)) m
     = operator_assign (arith := int_arithmetic) Sub 1 2 m.
Proof.
  intros m.
  assert (H1 : m !! 1%positive = Some 6) by reflexivity.
  assert (H2 : m !! 2%positive = Some 7) by reflexivity.
  split; [exact H1|]. split; [exact H2|].
  exact (assign_binary_is_compound (enumV := Meters) (arith := int_arithmetic)
           Sub m 1 2 6 7 H1 H2).
Defined.

Lemma mixed_comparison_mirror_witness :
  let m : gmap loc double := one_object dbl_nan in
  @LawfulCompare double double_arithmetic
  /\ m !! 1%positive = Some dbl_nan
  /\ expr_base_cmp (arith := double_arithmetic) CmpLe dbl_one 1 m
     = expr_cmp_base (arith := double_arithmetic) CmpGe 1 dbl_one m.
Proof.
  intros m.
  assert (H1 : m !! 1%positive = Some dbl_nan) by reflexivity.
  split; [exact double_lawful|]. split; [exact H1|].
  exact (mixed_comparison_mirror (arith := double_arithmetic) (lawful := double_lawful)
           CmpLe m 1 dbl_nan dbl_one H1).
Defined.

Lemma comparison_exclusive_witness :
  let m : gmap loc double := two_objects dbl_half dbl_one in
  @LawfulCompare double double_arithmetic
  /\ m !! 1%positive = Some dbl_half /\ m !! 2%positive = Some dbl_one
  /\ exists lt eq gt : bool,
      operator_lt (arith := double_arithmetic) 1 2 m = Some (lt, m)
      /\ operator_eq (arith := double_arithmetic) 1 2 m = Some (eq, m)
      /\ operator_gt (arith := double_arithmetic) 1 2 m = Some (gt, m)
      /\ lt && eq = false /\ lt && gt = false /\ eq && gt = false.
Proof.
  intros m.
  assert (H1 : m !! 1%positive = Some dbl_half) by reflexivity.
  assert (H2 : m !! 2%positive = Some dbl_one) by reflexivity.
  split; [exact double_lawful|]. split; [exact H1|]. split; [exact H2|].
  destruct (comparison_exclusive (arith := double_arithmetic) (lawful := double_lawful)
              m 1 2 dbl_half dbl_one H1 H2)
    as (lt & eq & gt & Hlt & Heq & Hgt & _ & Hle & Hlg & Heg & _).
  exists lt, eq, gt. auto 10.
Defined.

Lemma mixed_matches_wrapped_when_ordered_witness :
  let m : gmap loc int := one_object 5 in
  @LawfulCompare int int_arithmetic
  /\ m !! 1%positive = Some 5
  /\ prim_compare (Arithmetic := int_arithmetic) 5 7 <> None
  /\ expr_cmp_base (arith := int_arithmetic) CmpLe 1 7 m
     = expr_cmp_wrapped (enumV := Meters) (arith := int_arithmetic) CmpLe 1 7 m.
Proof.
  intros m.
  assert (H1 : m !! 1%positive = Some 5) by reflexivity.
  assert (Hord : prim_compare (Arithmetic := int_arithmetic) 5 7 <> None)
    by discriminate.
  split; [exact int_lawful|]. split; [exact H1|]. split; [exact Hord|].
  exact (proj1 (mixed_matches_wrapped_when_ordered (enumV := Meters)
                  (arith := int_arithmetic) (lawful := int_lawful)
                  CmpLe m 1 5 7 H1 Hord)).
Defined.

Lemma unsigned_increment_decrement_inverse_witness :
  let m : gmap loc unsigned := one_object 4294967295 in
  m !! 1%positive = Some 4294967295 /\ 0 <= 4294967295 < UINT_MODULUS
  /\ (bind (operator_pre_inc (arith := unsigned_arithmetic) 1)
        (fun r => operator_pre_dec (arith := unsigned_arithmetic) r)) m
     = Some (1%positive, m).
Proof.
  intros m.
  assert (H1 : m !! 1%positive = Some 4294967295) by reflexivity.
  assert (Hv : 0 <= 4294967295 < UINT_MODULUS) by (unfold UINT_MODULUS; lia).
  split; [exact H1|]. split; [exact Hv|].
  exact (proj1 (unsigned_increment_decrement_inverse (enumV := Meters)
                  m 1 4294967295 H1 Hv)).
Defined.

Lemma int_increment_decrement_edges_witness :
  let m : gmap loc int := one_object 2147483647 in
  m !! 1%positive = Some 2147483647 /\ INT_MIN <= 2147483647 <= INT_MAX
  /\ operator_pre_inc (arith := int_arithmetic) 1 m = None.
Proof.
  intros m.
  assert (H1 : m !! 1%positive = Some 2147483647) by reflexivity.
  assert (Hv : INT_MIN <= 2147483647 <= INT_MAX) by (unfold INT_MIN, INT_MAX; lia).
  split; [exact H1|]. split; [exact Hv|].
  destruct (int_increment_decrement_edges (enumV := Meters) m 1 2147483647 H1 Hv)
    as (_ & Hmax & _).
  exact (proj1 (Hmax eq_refl)).
Defined.

Lemma addition_needs_two_strong_witness :
  (Add = Add \/ Add = Sub)
  /\ Sema.resolve (Sema.arith Add) (Sema.named Sema.Strong) (Sema.temporary Sema.Base) = [].
Proof.
  split; [now left|].
  exact (addition_needs_two_strong Add (Sema.named Sema.Strong)
           (Sema.temporary Sema.Base) (or_introl eq_refl)).
Defined.

Lemma scaling_accepts_named_scalar_witness :
  Sema.Base <> Sema.Strong
  /\ Sema.resolve (Sema.arith Mul) (Sema.named Sema.Strong) (Sema.named Sema.Base)
     = [Sema.strong_base].
Proof.
  assert (Hne : Sema.Base <> Sema.Strong) by discriminate.
  split; [exact Hne|].
  exact (proj1 (scaling_accepts_named_scalar Sema.Base Sema.lvalue Sema.lvalue Hne)).
Defined.

Lemma unsigned_stream_round_trip_witness :
  let m : gmap loc unsigned := two_objects 1234 0 in
  m !! 1%positive = Some 1234 /\ m !! 2%positive = Some 0
  /\ 0 <= 1234 < UINT_MODULUS
  /\ (bind (operator_insert (io := unsigned_streamable) {| written := "" |} 1)
        (fun os => operator_extract (io := unsigned_streamable)
                     {| pending := written os; failbit := false |} 2)) m
     = Some ({| pending := ""; failbit := false |}, <[2%positive := 1234]> m).
Proof.
  intros m.
  assert (H1 : m !! 1%positive = Some 1234) by reflexivity.
  assert (H2 : m !! 2%positive = Some 0) by reflexivity.
  assert (Hv : 0 <= 1234 < UINT_MODULUS) by (unfold UINT_MODULUS; lia).
  split; [exact H1|]. split; [exact H2|]. split; [exact Hv|].
  exact (unsigned_stream_round_trip m 1 2 1234 0 H1 H2 Hv).
Defined.
